(** * Lucid relations and pagination: a shallow embedding

    The development follows the TypeScript sources:
    - [SimplePaginator] (offset/limit paginator and its link URLs),
    - [PivotHelpers] and [ManyToManyQueryBuilder] (pivot-table scoped
      query builder),
    - [BelongsToQueryClient] (associate / dissociate).

    JavaScript numbers that the code uses as counters and page numbers are
    modelled as [Z] (the integers below 2^53 are exact in IEEE doubles);
    strings are [string], read as sequences of UTF-8 bytes; the mutable
    [this] of a method is threaded explicitly. *)

From Stdlib Require Import ZArith QArith Qround Lia Bool Ascii String.
From Stdlib Require Import DecimalString DecimalZ.
From stdpp Require Import gmap strings list fin_maps.

Local Open Scope string_scope.
Local Open Scope Z_scope.

(* ===================================================================== *)
(** * JavaScript values *)
(* ===================================================================== *)

(** A native [Date] is identified by its epoch milliseconds. *)
Record JSDate := mkJSDate { epochMs : Z }.

(** A luxon [DateTime]: the code builds it with [DateTime.fromSQL] from a
    string or with [DateTime.fromJSDate] from a native date; the value is
    kept as the term that built it. *)
Inductive DateTime :=
| DateTime_fromSQL (sql : string)
| DateTime_fromJSDate (d : JSDate).

(** The values of type [any] that reach the modelled code. [VNaN] is kept
    apart from [VNum] because it is the one number besides [0] that is
    falsy. *)
Inductive JSValue :=
| VUndefined
| VNull
| VBool (b : bool)
| VNum (n : Z)
| VNaN
| VStr (s : string)
| VDate (d : JSDate)
| VDateTime (dt : DateTime).

#[global] Instance JSDate_eq_dec : EqDecision JSDate.
Proof. solve_decision. Defined.
#[global] Instance DateTime_eq_dec : EqDecision DateTime.
Proof. solve_decision. Defined.
#[global] Instance JSValue_eq_dec : EqDecision JSValue.
Proof. solve_decision. Defined.

(** JavaScript truthiness: [!v] is [negb (truthy v)]. *)
Definition truthy (v : JSValue) : bool :=
  match v with
  | VUndefined | VNull | VNaN => false
  | VBool b => b
  | VNum n => negb (n =? 0)
  | VStr s => negb (String.eqb s "")
  | VDate _ | VDateTime _ => true
  end.

(** [typeof v === 'string'] *)
Definition is_string (v : JSValue) : bool :=
  match v with VStr _ => true | _ => false end.

(** [v instanceof Date] *)
Definition is_Date (v : JSValue) : bool :=
  match v with VDate _ => true | _ => false end.

(** [String(n)] for an integer [n]: its decimal numeral. *)
Definition string_of_Z (n : Z) : string := NilZero.string_of_int (Z.to_int n).

(** [Number(s)] on a decimal numeral. *)
Definition Z_of_string (s : string) : option Z :=
  match NilZero.int_of_string s with
  | Some d => Some (Z.of_int d)
  | None => None
  end.

(** How a call ends: it returns, or it throws an [Error] with a message. *)
Inductive Outcome (A : Type) :=
| Returned (a : A)
| Thrown (message : string).
Arguments Returned {A} a.
Arguments Thrown {A} message.

(** [column.includes('.')] *)
Fixpoint includes_dot (s : string) : bool :=
  match s with
  | EmptyString => false
  | String c s' => if Ascii.eqb c "."%char then true else includes_dot s'
  end.

(* ===================================================================== *)
(** * The query-string serializer used by the paginator

    [getUrl] calls [stringify] of the [qs] package on a flat object. The
    model covers flat objects whose values are strings, integers, [null]
    or [undefined]: entries are written in property order as
    [key=value], joined by [&], both sides percent-encoded; [undefined]
    entries are skipped and [null] is written as the empty value. The
    reader [parse] is the matching form-urlencoded reader. *)
(* ===================================================================== *)

Module Qs.

Inductive QsValue :=
| QsStr (s : string)
| QsNum (n : Z)
| QsNull
| QsUndefined.

(** A JavaScript object used as a record of query parameters: property
    order matters for the output, keys are unique. *)
Definition QsObject := list (string * QsValue).

(** [Object.assign({}, o, { [k]: v })]: an existing property keeps its
    place and takes the new value, a new one goes last. *)
Fixpoint assign (o : QsObject) (k : string) (v : QsValue) : QsObject :=
  match o with
  | [] => [(k, v)]
  | (k', v') :: o' =>
      if String.eqb k' k then (k', v) :: o' else (k', v') :: assign o' k v
  end.

Definition in_range (lo hi c : ascii) : bool :=
  (nat_of_ascii lo <=? nat_of_ascii c)%nat && (nat_of_ascii c <=? nat_of_ascii hi)%nat.

(** Characters written as they are: letters, digits and [- _ . ~]. *)
Definition unreserved (c : ascii) : bool :=
  in_range "a" "z" c || in_range "A" "Z" c || in_range "0" "9" c
  || Ascii.eqb c "-" || Ascii.eqb c "_" || Ascii.eqb c "." || Ascii.eqb c "~".

Definition hex_digit (n : nat) : ascii :=
  if (n <? 10)%nat then ascii_of_nat (48 + n) else ascii_of_nat (55 + n).

Definition hex_value (c : ascii) : option nat :=
  if in_range "0" "9" c then Some (nat_of_ascii c - 48)%nat
  else if in_range "A" "F" c then Some (nat_of_ascii c - 55)%nat
  else if in_range "a" "f" c then Some (nat_of_ascii c - 87)%nat
  else None.

Fixpoint encode (s : string) : string :=
  match s with
  | EmptyString => EmptyString
  | String c s' =>
      if unreserved c then String c (encode s')
      else String "%" (String (hex_digit (nat_of_ascii c / 16))
                         (String (hex_digit (nat_of_ascii c mod 16)) (encode s')))
  end.

(** The decoder: [+] is a space, [%XY] a byte, a stray [%] is kept. *)
Fixpoint decode (s : string) : string :=
  match s with
  | EmptyString => EmptyString
  | String c s' =>
      if Ascii.eqb c "%" then
        match s' with
        | String h (String l rest) =>
            match hex_value h, hex_value l with
            | Some a, Some b => String (ascii_of_nat (16 * a + b)) (decode rest)
            | _, _ => String c (decode s')
            end
        | _ => String c (decode s')
        end
      else if Ascii.eqb c "+" then String " " (decode s')
      else String c (decode s')
  end.

(** The text written for a value; [None] when the entry is skipped. *)
Definition render (v : QsValue) : option string :=
  match v with
  | QsStr s => Some s
  | QsNum n => Some (string_of_Z n)
  | QsNull => Some ""
  | QsUndefined => None
  end.

Definition stringify_entry (e : string * QsValue) : option string :=
  match render (snd e) with
  | Some t => Some (encode (fst e) ++ "=" ++ encode t)
  | None => None
  end.

Fixpoint join_amp (parts : list string) : string :=
  match parts with
  | [] => ""
  | [p] => p
  | p :: ps => p ++ "&" ++ join_amp ps
  end.

Definition stringify (o : QsObject) : string :=
  join_amp (omap stringify_entry o).

(** Pieces of [s] between occurrences of [sep]; never empty. *)
Fixpoint split_on (sep : ascii) (s : string) : list string :=
  match s with
  | EmptyString => [EmptyString]
  | String c s' =>
      if Ascii.eqb c sep then EmptyString :: split_on sep s'
      else match split_on sep s' with
           | p :: ps => String c p :: ps
           | [] => [String c EmptyString]
           end
  end.

(** Key and value of one [key=value] piece, cut at the first [=]. *)
Fixpoint cut_eq (s : string) : string * string :=
  match s with
  | EmptyString => (EmptyString, EmptyString)
  | String c s' =>
      if Ascii.eqb c "=" then (EmptyString, s')
      else let '(k, v) := cut_eq s' in (String c k, v)
  end.

Definition parse_pair (piece : string) : string * string :=
  let '(k, v) := cut_eq piece in (decode k, decode v).

Definition parse (q : string) : list (string * string) :=
  if String.eqb q "" then [] else map parse_pair (split_on "&" q).

Fixpoint lookup_param (k : string) (l : list (string * string)) : option string :=
  match l with
  | [] => None
  | (k', v) :: l' => if String.eqb k' k then Some v else lookup_param k l'
  end.

(** The page number read back from a query string. *)
Definition page_param (q : string) : option Z :=
  match lookup_param "page" (parse q) with
  | Some t => Z_of_string t
  | None => None
  end.

(** *** Vocabulary of the statements *)

(** Occurrence of a character in a string. *)
Fixpoint occurs (c : ascii) (s : string) : bool :=
  match s with
  | EmptyString => false
  | String c' s' => Ascii.eqb c' c || occurs c s'
  end.

(** What a reader gets back from an object: the entries that are written,
    each with the text of its value. *)
Definition written (o : QsObject) : list (string * string) :=
  omap (fun e => match render (snd e) with
                 | Some t => Some (fst e, t)
                 | None => None
                 end) o.

End Qs.

(* ===================================================================== *)
(** * SimplePaginator *)
(* ===================================================================== *)

Module Paginator.

(** [Math.ceil(a / b)] on the exact quotient. The model is meant for
    [b <> 0]; JavaScript yields [Infinity] or [NaN] otherwise. *)
Definition Math_ceil_div (a b : Z) : Z := Qceiling (inject_Z a / inject_Z b).

Section WithRows.
Context {Row : Type}.

Record SimplePaginator := mkSimplePaginator {
  qs : Qs.QsObject;
  url : string;
  rows : list Row;
  firstPage : Z;
  isEmpty : bool;
  total : Z;
  hasTotal : bool;
  lastPage : Z;
  hasMorePages : bool;
  hasPages : bool;
  perPage : Z;
  currentPage : Z
}.

(** [new SimplePaginator(totalNumber, perPage, currentPage, ...rows)]:
    the field initialisers, in the order of the class body. *)
Definition new_SimplePaginator (totalNumber perPage currentPage : Z)
    (rows : list Row) : SimplePaginator :=
  let total := totalNumber in
  let hasTotal := 0 <? total in
  let lastPage := Z.max (Math_ceil_div total perPage) 1 in
  let hasMorePages := currentPage <? lastPage in
  let hasPages := negb (lastPage =? 1) in
  {| qs := []; url := "/"; rows := rows; firstPage := 1;
     isEmpty := (length rows =? 0)%nat;
     total := total; hasTotal := hasTotal; lastPage := lastPage;
     hasMorePages := hasMorePages; hasPages := hasPages;
     perPage := perPage; currentPage := currentPage |}.

Definition all (p : SimplePaginator) : list Row := rows p.

Definition queryString (values : Qs.QsObject) (p : SimplePaginator) : SimplePaginator :=
  {| qs := values; url := url p; rows := rows p; firstPage := firstPage p;
     isEmpty := isEmpty p; total := total p; hasTotal := hasTotal p;
     lastPage := lastPage p; hasMorePages := hasMorePages p;
     hasPages := hasPages p; perPage := perPage p;
     currentPage := currentPage p |}.

Definition baseUrl (u : string) (p : SimplePaginator) : SimplePaginator :=
  {| qs := qs p; url := u; rows := rows p; firstPage := firstPage p;
     isEmpty := isEmpty p; total := total p; hasTotal := hasTotal p;
     lastPage := lastPage p; hasMorePages := hasMorePages p;
     hasPages := hasPages p; perPage := perPage p;
     currentPage := currentPage p |}.

(** The object handed to [stringify] by [getUrl]. *)
Definition getUrl_params (p : SimplePaginator) (page : Z) : Qs.QsObject :=
  Qs.assign (qs p) "page" (Qs.QsNum (if page <? 1 then 1 else page)).

Definition getUrl (p : SimplePaginator) (page : Z) : string :=
  url p ++ "?" ++ Qs.stringify (getUrl_params p page).

(** [null] is [None]. *)
Definition getNextPageUrl (p : SimplePaginator) : option string :=
  if hasMorePages p then Some (getUrl p (currentPage p + 1)) else None.

Definition getPreviousPageUrl (p : SimplePaginator) : option string :=
  if 1 <? currentPage p then Some (getUrl p (currentPage p - 1)) else None.

Record PageLink := mkPageLink { link_url : string; link_page : Z; isActive : bool }.

(** The loop [for (let i = start; i <= end; i++)], unrolled over the
    [n] page numbers from [start]. *)
Fixpoint urls_from (p : SimplePaginator) (start : Z) (n : nat) : list PageLink :=
  match n with
  | O => []
  | S n' =>
      {| link_url := getUrl p start; link_page := start;
         isActive := start =? currentPage p |} :: urls_from p (start + 1) n'
  end.

Definition getUrlsForRange (p : SimplePaginator) (start end_ : Z) : list PageLink :=
  urls_from p start (Z.to_nat (end_ - start + 1)).

(** The names of the meta keys, as [namingStrategy.paginationMetaKeys()]
    returns them (the naming strategy itself is not part of the sources
    and stays a parameter). *)
Record SimplePaginatorMetaKeys := mkMetaKeys {
  key_total : string;
  key_perPage : string;
  key_currentPage : string;
  key_lastPage : string;
  key_firstPage : string;
  key_firstPageUrl : string;
  key_lastPageUrl : string;
  key_nextPageUrl : string;
  key_previousPageUrl : string
}.

(** A value of the meta object: a number, a string or [null]. *)
Inductive MetaValue :=
| MetaNum (n : Z)
| MetaStr (s : string)
| MetaNull.

(** The object [getMeta] returns, as the finite map from property name to
    value: what a reader of [meta[name]] sees. The order in which the
    properties are enumerated (JavaScript lists integer-like names first)
    is not part of it. *)
Definition MetaObject := gmap string MetaValue.

Definition MetaUrl (u : option string) : MetaValue :=
  match u with
  | Some s => MetaStr s
  | None => MetaNull
  end.

(** The [[key]: value] entries of the object literal in [getMeta], in the
    order they are evaluated. *)
Definition getMeta_entries (metaKeys : SimplePaginatorMetaKeys) (p : SimplePaginator)
    : list (string * MetaValue) :=
  [ (key_total metaKeys, MetaNum (total p));
    (key_perPage metaKeys, MetaNum (perPage p));
    (key_currentPage metaKeys, MetaNum (currentPage p));
    (key_lastPage metaKeys, MetaNum (lastPage p));
    (key_firstPage metaKeys, MetaNum (firstPage p));
    (key_firstPageUrl metaKeys, MetaStr (getUrl p 1));
    (key_lastPageUrl metaKeys, MetaStr (getUrl p (lastPage p)));
    (key_nextPageUrl metaKeys, MetaUrl (getNextPageUrl p));
    (key_previousPageUrl metaKeys, MetaUrl (getPreviousPageUrl p)) ].

(** Each entry defines its property in turn: a name written again takes
    the later value. *)
Definition getMeta (metaKeys : SimplePaginatorMetaKeys) (p : SimplePaginator)
    : MetaObject :=
  fold_left (fun (o : gmap string MetaValue) e => <[fst e := snd e]> o)
    (getMeta_entries metaKeys p) ∅.

(** [{ meta: this.getMeta(), data: this.all() }] *)
Definition toJSON (metaKeys : SimplePaginatorMetaKeys) (p : SimplePaginator)
    : MetaObject * list Row :=
  (getMeta metaKeys p, all p).

(** The keys of the snake-case naming strategy. *)
Definition snake_case_keys : SimplePaginatorMetaKeys :=
  mkMetaKeys "total" "per_page" "current_page" "last_page" "first_page"
    "first_page_url" "last_page_url" "next_page_url" "previous_page_url".

End WithRows.
Arguments SimplePaginator : clear implicits.

End Paginator.


(* ===================================================================== *)
(** * The many-to-many relation: descriptor, pivot helpers, query builder *)
(* ===================================================================== *)

Module ManyToMany.

(** The relation descriptor ([ManyToMany] of [./index]), with the members
    the builder reads. [relatedModel_table] is
    [relation.relatedModel().table]. *)
Record Relation := mkRelation {
  relationName : string;
  relatedModel_table : string;
  pivotTable : string;
  pivotForeignKey : string;
  pivotRelatedForeignKey : string;
  localKey : string;
  relatedKeyColumnName : string;
  pivotColumns : list string;
  pivotTimestamps : list string;
  pivotAlias : string -> string
}.

(** What the builder consumes from the surrounding ORM and from [utils];
    these are not part of the sources and stay parameters. *)
Class Orm := {
  LucidRow : Type;
  (** [getValue(model, key, relation, action)] of [utils]: the value it
      returns, when it returns ([OrmErrors] below has its error) *)
  getValue : LucidRow -> string -> Relation -> string -> JSValue;
  (** [resolveKey(column)] of the model query builder *)
  resolveKey : string -> string
}.

(** Modelled from the spec: [unique] of [utils] is absent from the sources;
    the spec has the parent key values deduplicated. First occurrences are
    kept, in order (the order of a JavaScript [Set]). *)
Fixpoint unique (l : list JSValue) : list JSValue :=
  match l with
  | [] => []
  | x :: l' => x :: filter (fun y => y <> x) (unique l')
  end.

(** An argument of a call on the generic builder: a value or an array. *)
Inductive Arg :=
| AVal (v : JSValue)
| AArr (vs : list JSValue).

Definition ACol (c : string) : Arg := AVal (VStr c).
Definition ACols (cs : list string) : Arg := AArr (map VStr cs).

(** One call that reaches the generic builder (a [super.m(...)] or a
    method this class does not override) or the knex query itself. *)
Record KnexCall := Call { call_method : string; call_args : list Arg }.

(** The underlying query: its operation ([_method]: select, update,
    del, ...) and the calls made on it so far. *)
Record Knex := mkKnex { knex_method : string; knex_calls : list KnexCall }.

Inductive Variation := And | Or | Not | OrNot.

(** ** PivotHelpers

    The helper is bound to a [ManyToManyQueryBuilder] or to a
    [ManyToManySubQueryBuilder]; what it uses of either is this
    interface. [query_where m], [query_whereNull m] and [query_whereIn m]
    are the dynamic calls [this.query[m](...)]; an argument that the
    call leaves out is [VUndefined] (or [None] for the list of values). *)
Class PivotQuery (Q : Type) := {
  query_relation : Q -> Relation;
  (** [this.query instanceof ManyToManySubQueryBuilder] *)
  query_isSubQueryBuilder : bool;
  query_isPivotOnlyQuery : Q -> bool;
  query_where : string -> string -> JSValue -> JSValue -> Q -> Q;
  query_whereNull : string -> string -> Q -> Q;
  query_whereIn : string -> string -> option (list JSValue) -> Q -> Q;
  (** [this.query.knexQuery.select(columns)] *)
  query_knexQuery_select : list string -> Q -> Q
}.

Module PivotHelpers.
Section Helpers.
Context {Q : Type} `{PivotQuery Q}.

Definition prefixPivotTable (query : Q) (column : string) : string :=
  if includes_dot column then column
  else if query_isSubQueryBuilder then pivotTable (query_relation query) ++ "." ++ column
  else if query_isPivotOnlyQuery query then column
  else pivotTable (query_relation query) ++ "." ++ column.

Definition where_method (variation : Variation) : string :=
  match variation with
  | Or => "orWhere"
  | Not => "whereNot"
  | OrNot => "orWhereNot"
  | And => "where"
  end.

Definition wherePivot (variation : Variation) (key : string)
    (operator value : JSValue) (query : Q) : Q :=
  let method := where_method variation in
  if bool_decide (value <> VUndefined) then
    query_where method (prefixPivotTable query key) operator value query
  else if bool_decide (operator <> VUndefined) then
    query_where method (prefixPivotTable query key) operator VUndefined query
  else
    query_where method key VUndefined VUndefined query.

Definition whereNull_method (variation : Variation) : string :=
  match variation with
  | Or => "orWhereNull"
  | Not => "whereNotNull"
  | OrNot => "orWhereNotNull"
  | And => "whereNull"
  end.

Definition whereNullPivot (variation : Variation) (key : string) (query : Q) : Q :=
  query_whereNull (whereNull_method variation) (prefixPivotTable query key) query.

Definition whereIn_method (variation : Variation) : string :=
  match variation with
  | Or => "orWhereIn"
  | Not => "whereNotIn"
  | OrNot => "orWhereNotIn"
  | And => "whereIn"
  end.

(** The key is a single column here (the array form of the key is not
    modelled). *)
Definition whereInPivot (variation : Variation) (key : string)
    (value : option (list JSValue)) (query : Q) : Q :=
  let method := whereIn_method variation in
  let key := prefixPivotTable query key in
  match value with
  | Some _ => query_whereIn method key value query
  | None => query_whereIn method key None query
  end.

Definition pivotColumns (aliasSelectColumns : bool) (columns : list string)
    (query : Q) : Q :=
  query_knexQuery_select
    (map (fun column =>
            if aliasSelectColumns
            then prefixPivotTable query column ++ " as "
                 ++ pivotAlias (query_relation query) column
            else prefixPivotTable query column)
         columns)
    query.

End Helpers.
End PivotHelpers.

(** ** ManyToManyQueryBuilder *)

Section QueryBuilder.
Context `{Orm}.

(** [parent: LucidRow | LucidRow[]] *)
Inductive Parent :=
| ParentRow (row : LucidRow)
| ParentRows (rows : list LucidRow).

(** The builder: first the state it inherits from the generic builder,
    then its own fields. [knexQuery] stands for the underlying query and
    everything the generic builder has been told so far. *)
Record ManyToManyQueryBuilder := mkBuilder {
  knexQuery : Knex;
  hasAggregates : bool;
  isChildQuery : bool;
  isRelatedPreloadQuery : bool;
  debugQueries : bool;
  customReporterData : JSValue;
  pivotQuery : bool;
  cherryPickingKeys : bool;
  appliedConstraints : bool;
  parent : Parent;
  relation : Relation
}.

Definition set_knexQuery (k : Knex) (b : ManyToManyQueryBuilder) :=
  mkBuilder k (hasAggregates b) (isChildQuery b) (isRelatedPreloadQuery b)
    (debugQueries b) (customReporterData b) (pivotQuery b)
    (cherryPickingKeys b) (appliedConstraints b) (parent b) (relation b).

Definition set_hasAggregates (v : bool) (b : ManyToManyQueryBuilder) :=
  mkBuilder (knexQuery b) v (isChildQuery b) (isRelatedPreloadQuery b)
    (debugQueries b) (customReporterData b) (pivotQuery b)
    (cherryPickingKeys b) (appliedConstraints b) (parent b) (relation b).

Definition set_isRelatedPreloadQuery (v : bool) (b : ManyToManyQueryBuilder) :=
  mkBuilder (knexQuery b) (hasAggregates b) (isChildQuery b) v
    (debugQueries b) (customReporterData b) (pivotQuery b)
    (cherryPickingKeys b) (appliedConstraints b) (parent b) (relation b).

Definition set_pivotQuery (v : bool) (b : ManyToManyQueryBuilder) :=
  mkBuilder (knexQuery b) (hasAggregates b) (isChildQuery b)
    (isRelatedPreloadQuery b) (debugQueries b) (customReporterData b) v
    (cherryPickingKeys b) (appliedConstraints b) (parent b) (relation b).

Definition set_cherryPickingKeys (v : bool) (b : ManyToManyQueryBuilder) :=
  mkBuilder (knexQuery b) (hasAggregates b) (isChildQuery b)
    (isRelatedPreloadQuery b) (debugQueries b) (customReporterData b)
    (pivotQuery b) v (appliedConstraints b) (parent b) (relation b).

Definition set_appliedConstraints (v : bool) (b : ManyToManyQueryBuilder) :=
  mkBuilder (knexQuery b) (hasAggregates b) (isChildQuery b)
    (isRelatedPreloadQuery b) (debugQueries b) (customReporterData b)
    (pivotQuery b) (cherryPickingKeys b) v (parent b) (relation b).

(** *** The generic builder, as far as this class calls it *)

(** Modelled from the spec: the generic query builder ([BaseQueryBuilder]
    and the classes below it) is absent from the sources. The spec has
    its predicate, selection, join and table methods as a chainable
    capability; a call [super.m(args)], or a call of a method this class
    does not override, is kept as the record of the call. *)
Definition super (method : string) (args : list Arg) (b : ManyToManyQueryBuilder)
    : ManyToManyQueryBuilder :=
  set_knexQuery
    (mkKnex (knex_method (knexQuery b))
       (knex_calls (knexQuery b) ++ [Call method args])) b.

(** Modelled from the spec: [queryAction()] of the generic builder is
    absent from the sources; it is the operation of the underlying query
    (the spec tells "update" and "delete" from the rest). *)
Definition queryAction (b : ManyToManyQueryBuilder) : string :=
  knex_method (knexQuery b).

Definition from (table : string) := super "from" [ACol table].

Definition innerJoin (table first second : string) :=
  super "innerJoin" [ACol table; ACol first; ACol second].

Definition wrapExisting := super "wrapExisting" [].

Definition pojo := super "pojo" [].

Definition knexQuery_select (columns : list string) :=
  super "knexQuery.select" [ACols columns].

(** Modelled from the spec: [debug] and [reporterData] of the generic
    builder are absent from the sources; they store the configuration
    that [clone] passes through. *)
Definition debug (v : bool) (b : ManyToManyQueryBuilder) :=
  mkBuilder (knexQuery b) (hasAggregates b) (isChildQuery b)
    (isRelatedPreloadQuery b) v (customReporterData b) (pivotQuery b)
    (cherryPickingKeys b) (appliedConstraints b) (parent b) (relation b).

(** Modelled from the spec: see [debug]. *)
Definition reporterData (v : JSValue) (b : ManyToManyQueryBuilder) :=
  mkBuilder (knexQuery b) (hasAggregates b) (isChildQuery b)
    (isRelatedPreloadQuery b) (debugQueries b) v (pivotQuery b)
    (cherryPickingKeys b) (appliedConstraints b) (parent b) (relation b).

(** Modelled from the spec: [applyQueryFlags] of the generic builder is
    absent from the sources; it hands the generic flags to the clone. *)
Definition applyQueryFlags (this query : ManyToManyQueryBuilder) :=
  set_hasAggregates (hasAggregates this) query.

(** *** The class itself *)

Definition relatedTable (b : ManyToManyQueryBuilder) : string :=
  relatedModel_table (relation b).

Definition isPivotOnlyQuery (b : ManyToManyQueryBuilder) : bool := pivotQuery b.

(** The setter of [isPivotOnlyQuery]. *)
Definition set_isPivotOnlyQuery (pivotOnly : bool) (b : ManyToManyQueryBuilder) :=
  let b := set_pivotQuery pivotOnly b in
  if pivotQuery b then pojo b else b.

(** [new ManyToManyQueryBuilder(builder, client, parent, relation)]: the
    flags start at their initialisers. *)
Definition new_ManyToManyQueryBuilder (builder : Knex) (parent : Parent)
    (relation : Relation) : ManyToManyQueryBuilder :=
  {| knexQuery := builder; hasAggregates := false; isChildQuery := false;
     isRelatedPreloadQuery := false; debugQueries := false;
     customReporterData := VUndefined;
     pivotQuery := false; cherryPickingKeys := false;
     appliedConstraints := false; parent := parent; relation := relation |}.

Definition prefixRelatedTable (b : ManyToManyQueryBuilder) (column : string) : string :=
  if includes_dot column then column else relatedTable b ++ "." ++ column.

Definition getRelationKeys (b : ManyToManyQueryBuilder) : list string :=
  [prefixRelatedTable b (relatedKeyColumnName (relation b))].

(** The overrides [where], [orWhere], [whereIn], [whereNull], ... all
    have the body [return super.m(this.prefixRelatedTable(key), ...rest)]. *)
Definition related (method : string) (key : string) (rest : list Arg)
    (b : ManyToManyQueryBuilder) : ManyToManyQueryBuilder :=
  super method (ACol (prefixRelatedTable b key) :: rest) b.

Definition where_ key (operator value : JSValue) :=
  related "where" key [AVal operator; AVal value].
Definition orWhere key (operator value : JSValue) :=
  related "orWhere" key [AVal operator; AVal value].
Definition andWhere key (operator value : JSValue) :=
  related "andWhere" key [AVal operator; AVal value].
Definition whereNot key (operator value : JSValue) :=
  related "whereNot" key [AVal operator; AVal value].
Definition orWhereNot key (operator value : JSValue) :=
  related "orWhereNot" key [AVal operator; AVal value].
Definition andWhereNot key (operator value : JSValue) :=
  related "andWhereNot" key [AVal operator; AVal value].

Definition AValues (value : option (list JSValue)) : Arg :=
  match value with
  | Some vs => AArr vs
  | None => AVal VUndefined
  end.

Definition whereIn key value := related "whereIn" key [AValues value].
Definition orWhereIn key value := related "orWhereIn" key [AValues value].
Definition andWhereIn key value := related "andWhereIn" key [AValues value].
Definition whereNotIn key value := related "whereNotIn" key [AValues value].
Definition orWhereNotIn key value := related "orWhereNotIn" key [AValues value].
Definition andWhereNotIn key value := related "andWhereNotIn" key [AValues value].

Definition whereNull key := related "whereNull" key [].
Definition orWhereNull key := related "orWhereNull" key [].
Definition andWhereNull key := related "andWhereNull" key [].
Definition whereNotNull key := related "whereNotNull" key [].
Definition orWhereNotNull key := related "orWhereNotNull" key [].
Definition andWhereNotNull key := related "andWhereNotNull" key [].

(** [this.query[method](...)] when [this.query] is this builder: the
    method found under that name is the override above (every override
    has the body of [related], which also stands for the names not
    listed). *)
Definition dispatch_where (method : string) key operator value
    : ManyToManyQueryBuilder -> ManyToManyQueryBuilder :=
  if String.eqb method "where" then where_ key operator value
  else if String.eqb method "orWhere" then orWhere key operator value
  else if String.eqb method "whereNot" then whereNot key operator value
  else if String.eqb method "orWhereNot" then orWhereNot key operator value
  else related method key [AVal operator; AVal value].

Definition dispatch_whereNull (method : string) key
    : ManyToManyQueryBuilder -> ManyToManyQueryBuilder :=
  if String.eqb method "whereNull" then whereNull key
  else if String.eqb method "orWhereNull" then orWhereNull key
  else if String.eqb method "whereNotNull" then whereNotNull key
  else if String.eqb method "orWhereNotNull" then orWhereNotNull key
  else related method key [].

Definition dispatch_whereIn (method : string) key value
    : ManyToManyQueryBuilder -> ManyToManyQueryBuilder :=
  if String.eqb method "whereIn" then whereIn key value
  else if String.eqb method "orWhereIn" then orWhereIn key value
  else if String.eqb method "whereNotIn" then whereNotIn key value
  else if String.eqb method "orWhereNotIn" then orWhereNotIn key value
  else related method key [AValues value].

#[global] Instance builder_PivotQuery : PivotQuery ManyToManyQueryBuilder := {|
  query_relation := relation;
  query_isSubQueryBuilder := false;
  query_isPivotOnlyQuery := isPivotOnlyQuery;
  query_where := dispatch_where;
  query_whereNull := dispatch_whereNull;
  query_whereIn := dispatch_whereIn;
  query_knexQuery_select := knexQuery_select
|}.

(** [pivotHelpers = new PivotHelpers(this, true)]: the helper works on
    the builder that owns it, and aliases the selected pivot columns. *)
Definition wherePivot key operator value : ManyToManyQueryBuilder -> _ :=
  PivotHelpers.wherePivot And key operator value.
Definition orWherePivot key operator value : ManyToManyQueryBuilder -> _ :=
  PivotHelpers.wherePivot Or key operator value.
Definition andWherePivot := wherePivot.
Definition whereNotPivot key operator value : ManyToManyQueryBuilder -> _ :=
  PivotHelpers.wherePivot Not key operator value.
Definition orWhereNotPivot key operator value : ManyToManyQueryBuilder -> _ :=
  PivotHelpers.wherePivot OrNot key operator value.
Definition andWhereNotPivot := whereNotPivot.

Definition whereInPivot key value : ManyToManyQueryBuilder -> _ :=
  PivotHelpers.whereInPivot And key value.
Definition orWhereInPivot key value : ManyToManyQueryBuilder -> _ :=
  PivotHelpers.whereInPivot Or key value.
Definition andWhereInPivot := whereInPivot.
Definition whereNotInPivot key value : ManyToManyQueryBuilder -> _ :=
  PivotHelpers.whereInPivot Not key value.
Definition orWhereNotInPivot key value : ManyToManyQueryBuilder -> _ :=
  PivotHelpers.whereInPivot OrNot key value.
Definition andWhereNotInPivot := whereNotInPivot.

Definition whereNullPivot key : ManyToManyQueryBuilder -> _ :=
  PivotHelpers.whereNullPivot And key.
Definition orWhereNullPivot key : ManyToManyQueryBuilder -> _ :=
  PivotHelpers.whereNullPivot Or key.
Definition andWhereNullPivot := whereNullPivot.
Definition whereNotNullPivot key : ManyToManyQueryBuilder -> _ :=
  PivotHelpers.whereNullPivot Not key.
Definition orWhereNotNullPivot key : ManyToManyQueryBuilder -> _ :=
  PivotHelpers.whereNullPivot OrNot key.
Definition andWhereNotNullPivot := whereNotNullPivot.

(** The builder's [pivotColumns(columns)]. *)
Definition select_pivotColumns (columns : list string)
    : ManyToManyQueryBuilder -> ManyToManyQueryBuilder :=
  PivotHelpers.pivotColumns true columns.

Definition addWhereConstraints (b : ManyToManyQueryBuilder) : ManyToManyQueryBuilder :=
  let queryAction := queryAction b in
  match parent b with
  | ParentRows rows =>
      whereInPivot (pivotForeignKey (relation b))
        (Some (unique (map (fun model =>
                              getValue model (localKey (relation b)) (relation b) queryAction)
                         rows)))
        (wrapExisting b)
  | ParentRow row =>
      let value := getValue row (localKey (relation b)) (relation b) queryAction in
      wherePivot (pivotForeignKey (relation b)) value VUndefined (wrapExisting b)
  end.

(** The columns are names here (raw expressions, which the source hands
    to [transformValue], are not modelled). *)
Definition transformRelatedTableColumns (b : ManyToManyQueryBuilder)
    (columns : list string) : list string :=
  if isPivotOnlyQuery b then columns
  else map (fun column => prefixRelatedTable b (resolveKey column)) columns.

Definition select (columns : list string) (b : ManyToManyQueryBuilder) :=
  let b := set_cherryPickingKeys true b in
  knexQuery_select (transformRelatedTableColumns b columns) b.

Definition is_delete_or_update (action : string) : bool :=
  String.eqb action "delete" || String.eqb action "update".

Definition applyConstraints (b : ManyToManyQueryBuilder) : ManyToManyQueryBuilder :=
  if appliedConstraints b then b
  else
    let b := set_appliedConstraints true b in
    if isPivotOnlyQuery b || is_delete_or_update (queryAction b) then
      addWhereConstraints (from (pivotTable (relation b)) b)
    else
      let b :=
        if negb (hasAggregates b) then
          let b := if negb (cherryPickingKeys b) then select ["*"] b else b in
          select_pivotColumns
            ([pivotForeignKey (relation b); pivotRelatedForeignKey (relation b)]
               ++ pivotColumns (relation b) ++ pivotTimestamps (relation b)) b
        else b in
      let b :=
        innerJoin (pivotTable (relation b))
          (relatedTable b ++ "." ++ relatedKeyColumnName (relation b))
          (pivotTable (relation b) ++ "." ++ pivotRelatedForeignKey (relation b)) b in
      addWhereConstraints b.

(** [clone()] changes [this] (it applies the constraints) and returns the
    new builder: the result is the pair of both. *)
Definition clone (this : ManyToManyQueryBuilder)
    : ManyToManyQueryBuilder * ManyToManyQueryBuilder :=
  let this := applyConstraints this in
  let clonedQuery :=
    new_ManyToManyQueryBuilder (knexQuery this) (parent this) (relation this) in
  let clonedQuery := applyQueryFlags this clonedQuery in
  let clonedQuery := set_isPivotOnlyQuery (isPivotOnlyQuery this) clonedQuery in
  let clonedQuery := set_cherryPickingKeys (cherryPickingKeys this) clonedQuery in
  let clonedQuery := set_appliedConstraints (appliedConstraints this) clonedQuery in
  let clonedQuery := set_isRelatedPreloadQuery (isRelatedPreloadQuery this) clonedQuery in
  let clonedQuery := debug (debugQueries this) clonedQuery in
  let clonedQuery := reporterData (customReporterData this) clonedQuery in
  (this, clonedQuery).

Definition paginate_error (b : ManyToManyQueryBuilder) : string :=
  "Cannot paginate relationship " ++ String "034"%char (relationName (relation b))
    ++ String "034"%char " during preload".

(** [paginate(page, perPage = 20)]: the value returned is the one of
    [super.paginate(page, perPage)], which the model keeps as that call. *)
Definition paginate (page : Z) (perPage : option Z) (b : ManyToManyQueryBuilder)
    : ManyToManyQueryBuilder * Outcome KnexCall :=
  let perPage := match perPage with Some n => n | None => 20 end in
  if isRelatedPreloadQuery b then (b, Thrown (paginate_error b))
  else
    let b := applyConstraints b in
    let call := Call "paginate" [AVal (VNum page); AVal (VNum perPage)] in
    (super "paginate" [AVal (VNum page); AVal (VNum perPage)] b, Returned call).

(** *** Result rows and the pivot timestamps *)

(** A fetched row, as far as [exec] touches it: its [$extras] object. *)
Record ResultRow := mkResultRow { extras : gmap string JSValue }.

(** The body run for one timestamp column of one row. An absent
    property reads as [undefined]. *)
Definition transform_timestamp (timestamp : string) (row : ResultRow) : ResultRow :=
  let timestampValue :=
    match extras row !! timestamp with Some v => v | None => VUndefined end in
  if negb (truthy timestampValue) then row
  else
    let row :=
      match timestampValue with
      | VStr s => mkResultRow (<[timestamp := VDateTime (DateTime_fromSQL s)]> (extras row))
      | _ => row
      end in
    match timestampValue with
    | VDate d => mkResultRow (<[timestamp := VDateTime (DateTime_fromJSDate d)]> (extras row))
    | _ => row
    end.

(** The callback given to [rowTransformer]: the [forEach] over the
    aliased timestamp columns. *)
Definition row_transformer (pivotTimestamps : list string) (row : ResultRow) : ResultRow :=
  fold_left (fun row timestamp => transform_timestamp timestamp row) pivotTimestamps row.

(** Modelled from the spec: [super.exec()] is absent from the sources; it
    fetches the rows and runs the registered row transformer once on each
    of them. [fetched] are the rows the underlying query yields. *)
Definition exec (b : ManyToManyQueryBuilder) (fetched : list ResultRow) : list ResultRow :=
  let pivotTimestamps :=
    map (fun timestamp => pivotAlias (relation b) timestamp) (pivotTimestamps (relation b)) in
  if (0 <? length pivotTimestamps)%nat
  then map (row_transformer pivotTimestamps) fetched
  else fetched.

(** *** Vocabulary of the statements *)

(** The calls recorded on the generic builder. *)
Definition calls (b : ManyToManyQueryBuilder) : list KnexCall :=
  knex_calls (knexQuery b).

(** What the row transformer makes of one value. *)
Definition normalized (v : JSValue) : JSValue :=
  match v with
  | VStr s => if String.eqb s "" then VStr s else VDateTime (DateTime_fromSQL s)
  | VDate d => VDateTime (DateTime_fromJSDate d)
  | _ => v
  end.

(** What of a builder no call on the underlying query touches: the flags
    and configuration other than [cherryPickingKeys] and
    [appliedConstraints], the parent, the relation and the operation. *)
Definition frame (b : ManyToManyQueryBuilder) :=
  (hasAggregates b, isChildQuery b, isRelatedPreloadQuery b, debugQueries b,
   customReporterData b, pivotQuery b, parent b, relation b,
   knex_method (knexQuery b)).

(** The names under which the pivot timestamps are in a row's extras. *)
Definition timestamp_aliases (b : ManyToManyQueryBuilder) : list string :=
  map (pivotAlias (relation b)) (pivotTimestamps (relation b)).

End QueryBuilder.

(** *** The error of [getValue]

    [getValue] of [utils] throws when the model has no value for the key.
    The methods above are the runs in which every [getValue] returns;
    [Fallible] has the same methods with the throw, for the three that
    reach [getValue]: [applyConstraints], [clone] and [paginate]. *)

(** The error [getValue(model, key, relation, action)] throws, [None]
    when it returns; like [getValue] itself it is not part of the sources
    and stays a parameter. *)
Class OrmErrors `{Orm} := {
  getValue_error : LucidRow -> string -> Relation -> string -> option string
}.

Module Fallible.
Section QueryBuilder.
Context `{OrmErrors}.

Definition getValue (model : LucidRow) (key : string) (relation : Relation)
    (action : string) : Outcome JSValue :=
  match getValue_error model key relation action with
  | Some message => Thrown message
  | None => Returned (getValue model key relation action)
  end.

(** [rows.map((model) => getValue(model, key, relation, action))]: the
    first throw ends the loop. *)
Fixpoint map_getValue (rows : list LucidRow) (key : string) (relation : Relation)
    (action : string) : Outcome (list JSValue) :=
  match rows with
  | [] => Returned []
  | model :: rows' =>
      match getValue model key relation action with
      | Thrown message => Thrown message
      | Returned value =>
          match map_getValue rows' key relation action with
          | Thrown message => Thrown message
          | Returned values => Returned (value :: values)
          end
      end
  end.

(** For a list of parents [this.wrapExisting()] is evaluated before the
    argument that calls [getValue]; for one parent [getValue] comes
    first. *)
Definition addWhereConstraints (b : ManyToManyQueryBuilder)
    : ManyToManyQueryBuilder * Outcome unit :=
  let queryAction := queryAction b in
  match parent b with
  | ParentRows rows =>
      let b := wrapExisting b in
      match map_getValue rows (localKey (relation b)) (relation b) queryAction with
      | Thrown message => (b, Thrown message)
      | Returned values =>
          (whereInPivot (pivotForeignKey (relation b)) (Some (unique values)) b,
           Returned tt)
      end
  | ParentRow row =>
      match getValue row (localKey (relation b)) (relation b) queryAction with
      | Thrown message => (b, Thrown message)
      | Returned value =>
          (wherePivot (pivotForeignKey (relation b)) value VUndefined (wrapExisting b),
           Returned tt)
      end
  end.

Definition applyConstraints (b : ManyToManyQueryBuilder)
    : ManyToManyQueryBuilder * Outcome unit :=
  if appliedConstraints b then (b, Returned tt)
  else
    let b := set_appliedConstraints true b in
    if isPivotOnlyQuery b || is_delete_or_update (queryAction b) then
      addWhereConstraints (from (pivotTable (relation b)) b)
    else
      let b :=
        if negb (hasAggregates b) then
          let b := if negb (cherryPickingKeys b) then select ["*"] b else b in
          select_pivotColumns
            ([pivotForeignKey (relation b); pivotRelatedForeignKey (relation b)]
               ++ pivotColumns (relation b) ++ pivotTimestamps (relation b)) b
        else b in
      let b :=
        innerJoin (pivotTable (relation b))
          (relatedTable b ++ "." ++ relatedKeyColumnName (relation b))
          (pivotTable (relation b) ++ "." ++ pivotRelatedForeignKey (relation b)) b in
      addWhereConstraints b.

(** [clone()]: [this] after the call, and the new builder when the call
    returns. *)
Definition clone (this : ManyToManyQueryBuilder)
    : ManyToManyQueryBuilder * Outcome ManyToManyQueryBuilder :=
  match applyConstraints this with
  | (this, Thrown message) => (this, Thrown message)
  | (this, Returned _) =>
      let clonedQuery :=
        new_ManyToManyQueryBuilder (knexQuery this) (parent this) (relation this) in
      let clonedQuery := applyQueryFlags this clonedQuery in
      let clonedQuery := set_isPivotOnlyQuery (isPivotOnlyQuery this) clonedQuery in
      let clonedQuery := set_cherryPickingKeys (cherryPickingKeys this) clonedQuery in
      let clonedQuery := set_appliedConstraints (appliedConstraints this) clonedQuery in
      let clonedQuery := set_isRelatedPreloadQuery (isRelatedPreloadQuery this) clonedQuery in
      let clonedQuery := debug (debugQueries this) clonedQuery in
      let clonedQuery := reporterData (customReporterData this) clonedQuery in
      (this, Returned clonedQuery)
  end.

(** [paginate(page, perPage = 20)]: the value returned is the one of
    [super.paginate(page, perPage)], which the model keeps as that call. *)
Definition paginate (page : Z) (perPage : option Z) (b : ManyToManyQueryBuilder)
    : ManyToManyQueryBuilder * Outcome KnexCall :=
  let perPage := match perPage with Some n => n | None => 20 end in
  if isRelatedPreloadQuery b then (b, Thrown (paginate_error b))
  else
    match applyConstraints b with
    | (b, Thrown message) => (b, Thrown message)
    | (b, Returned _) =>
        let call := Call "paginate" [AVal (VNum page); AVal (VNum perPage)] in
        (super "paginate" [AVal (VNum page); AVal (VNum perPage)] b, Returned call)
    end.

(** *** Vocabulary of the statements *)

(** The error of the first [getValue] that throws when the constraints
    of [b] are applied, [None] when every one returns. *)
Definition parent_value_error (b : ManyToManyQueryBuilder) : option string :=
  let error model :=
    getValue_error model (localKey (relation b)) (relation b) (queryAction b) in
  match parent b with
  | ParentRow row => error row
  | ParentRows rows => head (omap error rows)
  end.

End QueryBuilder.
End Fallible.


(** *** A concrete relation: users and their skills *)

Definition example_orm : Orm :=
  {| LucidRow := Z;
     getValue := fun model _ _ _ => VNum model;
     resolveKey := fun column => column |}.

Definition skills : Relation :=
  mkRelation "skills" "skills" "skill_user" "user_id" "skill_id" "id" "id"
    ["proficiency"] ["created_at"] (fun column => "pivot_" ++ column).

Definition skills_of_user : @ManyToManyQueryBuilder example_orm :=
  @new_ManyToManyQueryBuilder example_orm (mkKnex "select" [])
    (@ParentRow example_orm 1) skills.

(** *** The same relation for a user that has no [id] yet

    A parent row is its [id], if it has one; [getValue] throws for a row
    without. *)

Definition unsaved_orm : Orm :=
  {| LucidRow := option Z;
     getValue := fun model _ _ _ =>
       match model with Some id => VNum id | None => VUndefined end;
     resolveKey := fun column => column |}.

Definition unsaved_orm_errors : @OrmErrors unsaved_orm :=
  {| getValue_error := fun (model : @LucidRow unsaved_orm) key relation action =>
       match model with
       | Some _ => None
       | None =>
           Some ("Cannot " ++ action ++ " " ++ relationName relation
                 ++ ", value of " ++ key ++ " is undefined")
       end |}.


End ManyToMany.


(* ===================================================================== *)
(** * BelongsTo: associate and dissociate *)
(* ===================================================================== *)

Module BelongsTo.

(** The relation descriptor, with the member [dissociate] reads. *)
Record Relation := mkRelation {
  relationName : string;
  foreignKey : string
}.

Definition TrxId := nat.
Definition Ref := nat.

(** A model instance: its table and primary key column, its attributes,
    [$trx] and [$isPersisted]. *)
Record LucidRow := mkRow {
  table : string;
  primaryKey : string;
  attributes : gmap string JSValue;
  trx : option TrxId;
  isPersisted : bool
}.

(** One persisted row image. *)
Record Write := mkWrite { write_table : string; write_row : gmap string JSValue }.

(** The store: what is committed, the uncommitted writes of each open
    transaction, and the next generated key. *)
Record Db := mkDb {
  committed : list Write;
  pending : gmap TrxId (list Write);
  next_key : Z
}.

(** [this.client]: a plain client, or a transaction client
    ([client.isTransaction]). *)
Inductive Client :=
| PlainClient
| TrxClient (t : TrxId).

(** The world the calls run in: the model instances by reference (the
    caller keeps its references and sees every change), the store, and the
    outcomes of the coming persist operations ([true]: the next one
    fails). *)
Record World := mkWorld {
  heap : Ref -> LucidRow;
  db : Db;
  faults : list bool
}.

(** Calls that change the world and may throw; a throw keeps the changes
    made so far. *)
Definition M (A : Type) : Type := World -> World * Outcome A.

Definition ret {A} (a : A) : M A := fun w => (w, Returned a).

Definition throw {A} (message : string) : M A := fun w => (w, Thrown message).

Definition bind {A B} (c : M A) (k : A -> M B) : M B :=
  fun w =>
    match c w with
    | (w', Returned a) => k a w'
    | (w', Thrown e) => (w', Thrown e)
    end.

#[global] Instance M_ret : MRet M := @ret.
#[global] Instance M_bind : MBind M := fun A B k c => bind c k.

(** [try { c } catch (error) { handler; throw error }] *)
Definition on_error {A} (c : M A) (handler : M unit) : M A :=
  fun w =>
    match c w with
    | (w', Returned a) => (w', Returned a)
    | (w', Thrown e) =>
        match handler w' with
        | (w'', Returned _) => (w'', Thrown e)
        | (w'', Thrown e') => (w'', Thrown e')
        end
    end.

Definition get_row (r : Ref) : M LucidRow := fun w => (w, Returned (heap w r)).

(** The references after the object at [r] has become [row]. *)
Definition update_row (h : Ref -> LucidRow) (r : Ref) (row : LucidRow)
    : Ref -> LucidRow :=
  fun r' => if Nat.eqb r' r then row else h r'.

Definition put_row (r : Ref) (row : LucidRow) : M unit :=
  fun w => (mkWorld (update_row (heap w) r row) (db w) (faults w), Returned tt).

Definition get_db : M Db := fun w => (w, Returned (db w)).

Definition put_db (d : Db) : M unit :=
  fun w => (mkWorld (heap w) d (faults w), Returned tt).

(** The outcome of the next persist operation. *)
Definition next_fault : M bool :=
  fun w =>
    match faults w with
    | f :: rest => (mkWorld (heap w) (db w) rest, Returned f)
    | [] => (w, Returned false)
    end.

(** [row[key]]: an absent attribute reads as [undefined]. *)
Definition attribute (row : LucidRow) (key : string) : JSValue :=
  match attributes row !! key with Some v => v | None => VUndefined end.

Definition set_attribute (key : string) (v : JSValue) (row : LucidRow) : LucidRow :=
  mkRow (table row) (primaryKey row) (<[key := v]> (attributes row)) (trx row)
    (isPersisted row).

Definition set_trx (t : option TrxId) (row : LucidRow) : LucidRow :=
  mkRow (table row) (primaryKey row) (attributes row) t (isPersisted row).

Definition set_persisted (row : LucidRow) : LucidRow :=
  mkRow (table row) (primaryKey row) (attributes row) (trx row) true.

(** *** The transaction and persistence capabilities

    [client.transaction()], [trx.commit()], [trx.rollback()],
    [row.save()], [relation.hydrateForPersistence] and
    [managedTransaction] of [utils] are absent from the sources; each is
    modelled from what the spec says of it. *)

(** Modelled from the spec: [client.transaction()] is absent from the
    sources; it begins a transaction, here a new one with no writes. *)
Definition transaction : M TrxId :=
  d ← get_db;
  let t := fresh (dom (pending d)) in
  put_db (mkDb (committed d) (<[t := []]> (pending d)) (next_key d)) ;;
  ret t.

(** Modelled from the spec: [trx.commit()] is absent from the sources;
    the writes made through the transaction become visible together. *)
Definition commit (t : TrxId) : M unit :=
  d ← get_db;
  match pending d !! t with
  | Some writes =>
      put_db (mkDb (committed d ++ writes) (delete t (pending d)) (next_key d))
  | None => throw "Transaction query already complete"
  end.

(** Modelled from the spec: [trx.rollback()] is absent from the sources;
    the writes made through the transaction are dropped. *)
Definition rollback (t : TrxId) : M unit :=
  d ← get_db;
  put_db (mkDb (committed d) (delete t (pending d)) (next_key d)).

(** Modelled from the spec: the statement that [save] issues is absent
    from the sources; one row image is written, through the row's
    transaction when it has one. *)
Definition write (via : option TrxId) (w : Write) : M unit :=
  d ← get_db;
  match via with
  | None => put_db (mkDb (committed d ++ [w]) (pending d) (next_key d))
  | Some t =>
      match pending d !! t with
      | Some writes =>
          put_db (mkDb (committed d) (<[t := (writes ++ [w])%list]> (pending d)) (next_key d))
      | None => throw "Transaction query already complete"
      end
  end.

(** Modelled from the spec: part of [save]; the persisted record has a
    primary-key value, a generated one when it had none. *)
Definition with_primary_key (row : LucidRow) : M LucidRow :=
  match attributes row !! primaryKey row with
  | Some _ => ret row
  | None =>
      d ← get_db;
      put_db (mkDb (committed d) (pending d) (next_key d + 1)) ;;
      ret (set_attribute (primaryKey row) (VNum (next_key d)) row)
  end.

(** Modelled from the spec: [row.save()] is absent from the sources; it
    inserts or updates the record, or fails and changes nothing. *)
Definition save (r : Ref) : M unit :=
  fails ← next_fault;
  if fails : bool then throw "persist failed"
  else
    row ← get_row r;
    row ← with_primary_key row;
    write (trx row) (mkWrite (table row) (attributes row)) ;;
    put_row r (set_persisted row).

(** Modelled from the spec: [relation.hydrateForPersistence] is absent
    from the sources; it copies the related record's key value onto the
    parent's foreign-key field. *)
Definition hydrateForPersistence (relation : Relation) (parent related : Ref) : M unit :=
  p ← get_row parent;
  rel ← get_row related;
  put_row parent (set_attribute (foreignKey relation) (attribute rel (primaryKey rel)) p).

(** Modelled from the spec: [managedTransaction] of [utils] is absent
    from the sources; a transaction that comes with the client is reused
    and neither committed nor rolled back here, one that is opened here
    is committed when the callback returns and rolled back when it
    throws. *)
Definition managedTransaction {A} (client : Client) (callback : TrxId -> M A) : M A :=
  match client with
  | TrxClient t => callback t
  | PlainClient =>
      t ← transaction;
      response ← on_error (callback t) (rollback t);
      commit t ;;
      ret response
  end.

(** *** BelongsToQueryClient *)

(** [this.parent.$trx || this.client] *)
Definition parent_trx_or_client (parent : LucidRow) (client : Client) : Client :=
  match trx parent with
  | Some t => TrxClient t
  | None => client
  end.

Definition associate (relation : Relation) (parent : Ref) (client : Client)
    (related : Ref) : M unit :=
  p ← get_row parent;
  managedTransaction (parent_trx_or_client p client)
    (fun t =>
       rel ← get_row related;
       put_row related (set_trx (Some t) rel) ;;
       save related ;;
       hydrateForPersistence relation parent related ;;
       p ← get_row parent;
       put_row parent (set_trx (Some t) p) ;;
       save parent).

Definition dissociate (relation : Relation) (parent : Ref) : M unit :=
  p ← get_row parent;
  put_row parent (set_attribute (foreignKey relation) VNull p) ;;
  save parent.

(** *** Vocabulary of the statements *)

(** The record after [save] has given it a key, if it had none. *)
Definition keyed (row : LucidRow) (key : Z) : LucidRow :=
  match attributes row !! primaryKey row with
  | Some _ => row
  | None => set_attribute (primaryKey row) (VNum key) row
  end.

(** The row image that [save] writes. *)
Definition image (row : LucidRow) : Write := mkWrite (table row) (attributes row).

(** How the store [d'] differs from [d] after one row image was written
    through [via]. *)
Definition stored (via : option TrxId) (img : Write) (d d' : Db) : Prop :=
  match via with
  | None => committed d' = (committed d ++ [img])%list /\ pending d' = pending d
  | Some t =>
      committed d' = committed d
      /\ exists writes, pending d !! t = Some writes
                        /\ pending d' = <[t := (writes ++ [img])%list]> (pending d)
  end.

(** The steps [associate] runs inside the transaction [t]. *)
Definition associate_steps (relation : Relation) (parent related : Ref) (t : TrxId)
    : M unit :=
  rel ← get_row related;
  put_row related (set_trx (Some t) rel) ;;
  save related ;;
  hydrateForPersistence relation parent related ;;
  p ← get_row parent;
  put_row parent (set_trx (Some t) p) ;;
  save parent.

(** The world in which the related record is saved, and the one in which
    the parent is. *)
Definition before_related_save (related : Ref) (t : TrxId) (w : World) : World :=
  mkWorld (update_row (heap w) related (set_trx (Some t) (heap w related)))
    (db w) (faults w).

Definition before_parent_save (relation : Relation) (parent related : Ref)
    (t : TrxId) (w : World) : World :=
  let hydrated :=
    update_row (heap w) parent
      (set_attribute (foreignKey relation)
         (attribute (heap w related) (primaryKey (heap w related)))
         (heap w parent)) in
  mkWorld (update_row hydrated parent (set_trx (Some t) (hydrated parent)))
    (db w) (faults w).

(** The world right after [managedTransaction] has opened its own
    transaction. *)
Definition opened (w : World) : World :=
  mkWorld (heap w)
    (mkDb (committed (db w))
       (<[fresh (dom (pending (db w))) := []]> (pending (db w)))
       (next_key (db w)))
    (faults w).

(** The row image that [associate] writes for the related record when it
    runs in the transaction [t] from the world [w]: the record as it is
    on entry, with the generated key when it had none. *)
Definition related_image (related : Ref) (t : TrxId) (w : World) : Write :=
  image (keyed (set_trx (Some t) (heap w related)) (next_key (db w))).

(** What [associate] has written when it throws in an open transaction:
    nothing when the related record's save failed, the related record's
    image when the parent's did. *)
Definition written_before_failure (related : Ref) (t : TrxId) (w : World) : list Write :=
  match faults w with
  | true :: _ => []
  | _ => [related_image related t w]
  end.

(** *** A concrete scenario: a saved profile and a user not yet saved *)

Definition profile_user : Relation := mkRelation "user" "user_id".

Definition saved_profile : LucidRow :=
  mkRow "profiles" "id" {[ "id" := VNum 7 ]} None true.

Definition unsaved_user : LucidRow :=
  mkRow "users" "id" {[ "username" := VStr "virk" ]} None false.

(** Reference 0 is the profile (the parent), every other one the user. *)
Definition profile_and_user (profile : LucidRow) : Ref -> LucidRow :=
  fun r => if Nat.eqb r 0 then profile else unsaved_user.

Definition profiles_only : Db := mkDb [image saved_profile] ∅ 1.

(** The same store with the caller's transaction 5 open. *)
Definition profiles_in_transaction : Db :=
  mkDb [image saved_profile] {[ 5%nat := [] ]} 1.

End BelongsTo.

(* ===================================================================== *)
(** * Properties of the query-string model *)
(* ===================================================================== *)

Module QsFacts.
Import Qs.

Lemma Z_of_string_of_Z (n : Z) : Z_of_string (string_of_Z n) = Some n.
Proof.
  unfold Z_of_string, string_of_Z.
  rewrite NilZero.isi.
  - f_equal. apply DecimalZ.of_to.
  - destruct n; simpl; try discriminate.
    intros [= E]. exact (DecimalPos.Unsigned.to_uint_nonnil _ E).
  - destruct n; simpl; try discriminate.
    intros [= E]. exact (DecimalPos.Unsigned.to_uint_nonnil _ E).
Qed.

Ltac each_char c := destruct c as [[] [] [] [] [] [] [] []].

Lemma decode_encode_cons (c : ascii) (s : string) :
  decode (encode (String c s)) = String c (decode (encode s)).
Proof. each_char c; reflexivity. Qed.

Lemma decode_encode (s : string) : decode (encode s) = s.
Proof.
  induction s as [|c s IH]; [reflexivity|].
  rewrite decode_encode_cons, IH. reflexivity.
Qed.

Lemma encode_cons_amp (c : ascii) (s : string) :
  occurs "&" (encode (String c s)) = occurs "&" (encode s).
Proof. each_char c; reflexivity. Qed.

Lemma encode_cons_eq (c : ascii) (s : string) :
  occurs "=" (encode (String c s)) = occurs "=" (encode s).
Proof. each_char c; reflexivity. Qed.

Lemma encode_no_amp (s : string) : occurs "&" (encode s) = false.
Proof.
  induction s as [|c s IH]; [reflexivity|]. rewrite encode_cons_amp. exact IH.
Qed.

Lemma encode_no_eq (s : string) : occurs "=" (encode s) = false.
Proof.
  induction s as [|c s IH]; [reflexivity|]. rewrite encode_cons_eq. exact IH.
Qed.

Lemma occurs_app (c : ascii) (s t : string) :
  occurs c (s ++ t) = occurs c s || occurs c t.
Proof.
  induction s as [|c' s IH]; simpl; [reflexivity|].
  rewrite IH. apply orb_assoc.
Qed.

Lemma split_on_nonempty (sep : ascii) (s : string) : split_on sep s <> [].
Proof.
  destruct s as [|c s]; simpl; [discriminate|].
  destruct (Ascii.eqb c sep); [discriminate|].
  destruct (split_on sep s); discriminate.
Qed.

(** A piece without the separator is returned whole. *)
Lemma split_on_piece (sep : ascii) (p : string) :
  occurs sep p = false -> split_on sep p = [p].
Proof.
  induction p as [|c p IH]; simpl; [reflexivity|].
  intros H. apply orb_false_elim in H as [Hc Hp].
  rewrite Hc, (IH Hp). reflexivity.
Qed.

Lemma split_on_app (sep : ascii) (p rest : string) :
  occurs sep p = false ->
  split_on sep (p ++ String sep rest) = p :: split_on sep rest.
Proof.
  induction p as [|c p IH]; simpl.
  - intros _. rewrite Ascii.eqb_refl. reflexivity.
  - intros H. apply orb_false_elim in H as [Hc Hp].
    rewrite Hc, (IH Hp). reflexivity.
Qed.

Lemma split_on_join_amp (p : string) (ps : list string) :
  Forall (fun q => occurs "&" q = false) (p :: ps) ->
  split_on "&" (join_amp (p :: ps)) = p :: ps.
Proof.
  revert p. induction ps as [|q ps IH]; intros p Hall.
  - simpl. apply split_on_piece. exact (Forall_inv Hall).
  - change (join_amp (p :: q :: ps)) with (p ++ String "&" (join_amp (q :: ps))).
    rewrite split_on_app by exact (Forall_inv Hall).
    rewrite IH by exact (Forall_inv_tail Hall). reflexivity.
Qed.

Lemma cut_eq_app (k v : string) :
  occurs "=" k = false -> cut_eq (k ++ String "=" v) = (k, v).
Proof.
  induction k as [|c k IH]; simpl; [reflexivity|].
  intros H. apply orb_false_elim in H as [Hc Hk].
  rewrite Hc, (IH Hk). reflexivity.
Qed.

Lemma parse_pair_encoded (k t : string) :
  parse_pair (encode k ++ "=" ++ encode t) = (k, t).
Proof.
  unfold parse_pair.
  change (encode k ++ "=" ++ encode t) with (encode k ++ String "=" (encode t)).
  rewrite cut_eq_app by apply encode_no_eq.
  rewrite !decode_encode. reflexivity.
Qed.

Lemma stringify_entry_no_amp (e : string * QsValue) (piece : string) :
  stringify_entry e = Some piece -> occurs "&" piece = false.
Proof.
  unfold stringify_entry. destruct (render (snd e)); intros [= <-].
  rewrite !occurs_app, !encode_no_amp. reflexivity.
Qed.

Lemma omap_stringify_no_amp (o : QsObject) :
  Forall (fun q => occurs "&" q = false) (omap stringify_entry o).
Proof.
  induction o as [|e o IH]; simpl; [constructor|].
  destruct (stringify_entry e) eqn:He; [|exact IH].
  constructor; [exact (stringify_entry_no_amp _ _ He) | exact IH].
Qed.

Lemma map_parse_pair_stringify (o : QsObject) :
  map parse_pair (omap stringify_entry o) = written o.
Proof.
  induction o as [|[k v] o IH]; simpl; [reflexivity|].
  unfold stringify_entry at 1. simpl.
  destruct (render v) as [t|]; simpl; [|exact IH].
  f_equal; [apply parse_pair_encoded | exact IH].
Qed.

Lemma piece_not_empty (e : string * QsValue) (piece : string) :
  stringify_entry e = Some piece -> piece <> "".
Proof.
  unfold stringify_entry. destruct (render (snd e)); intros [= <-].
  destruct (encode (fst e)); discriminate.
Qed.

Lemma join_amp_not_empty (p : string) (ps : list string) :
  p <> "" -> join_amp (p :: ps) <> "".
Proof.
  intros Hp. destruct ps as [|q ps]; simpl; [exact Hp|].
  destruct p; [congruence | discriminate].
Qed.

(** Reading back what [stringify] wrote gives the written entries. *)
Lemma parse_stringify (o : QsObject) : parse (stringify o) = written o.
Proof.
  unfold parse, stringify.
  pose proof (omap_stringify_no_amp o) as Hall.
  pose proof (map_parse_pair_stringify o) as Hmap.
  destruct (omap stringify_entry o) as [|p ps] eqn:Ho.
  - simpl in *. exact Hmap.
  - assert (Hp : p <> "").
    { clear -Ho. induction o as [|e o IH]; simpl in Ho; [discriminate|].
      destruct (stringify_entry e) eqn:He; [|exact (IH Ho)].
      injection Ho as <- _. exact (piece_not_empty _ _ He). }
    destruct (String.eqb_spec (join_amp (p :: ps)) "") as [E|_].
    + exfalso. exact (join_amp_not_empty p ps Hp E).
    + rewrite split_on_join_amp by exact Hall. exact Hmap.
Qed.

Lemma lookup_written_assign (o : QsObject) (k : string) (v : QsValue) (t : string) :
  render v = Some t ->
  lookup_param k (written (assign o k v)) = Some t.
Proof.
  intros Hv. induction o as [|[k' v'] o IH]; simpl.
  - rewrite Hv. simpl. rewrite String.eqb_refl. reflexivity.
  - destruct (String.eqb_spec k' k) as [->|Hne]; simpl.
    + rewrite Hv. simpl. rewrite String.eqb_refl. reflexivity.
    + destruct (render v') as [t'|]; simpl; [|exact IH].
      destruct (String.eqb_spec k' k) as [E|_]; [contradiction | exact IH].
Qed.

(** The page written by [stringify] is the page read by [page_param]. *)
Lemma page_param_stringify_assign (o : QsObject) (n : Z) :
  page_param (stringify (assign o "page" (QsNum n))) = Some n.
Proof.
  unfold page_param. rewrite parse_stringify.
  rewrite (lookup_written_assign o "page" (QsNum n) (string_of_Z n) eq_refl).
  apply Z_of_string_of_Z.
Qed.

End QsFacts.

(* ===================================================================== *)
(** * Properties of SimplePaginator *)
(* ===================================================================== *)

Module PaginatorSpec.
Import Paginator.

(** [Math.ceil(a / b)] is the integer [c] with [(c - 1) * b < a <= c * b]. *)
Lemma Math_ceil_div_bounds (a b : Z) :
  0 < b ->
  (Math_ceil_div a b - 1) * b < a <= Math_ceil_div a b * b.
Proof.
  intros Hb. unfold Math_ceil_div.
  set (x := (inject_Z a / inject_Z b)%Q).
  assert (Hb' : (inject_Z 0 < inject_Z b)%Q) by (rewrite <- Zlt_Qlt; exact Hb).
  assert (Hx : (x * inject_Z b == inject_Z a)%Q).
  { unfold x. rewrite Qmult_comm. apply Qmult_div_r. intros E. rewrite E in Hb'. inversion Hb'. }
  split.
  - pose proof (Qceiling_lt x) as Hlt.
    apply (Qmult_lt_r _ _ _ Hb') in Hlt.
    rewrite Hx, <- inject_Z_mult, <- Zlt_Qlt in Hlt. exact Hlt.
  - pose proof (Qle_ceiling x) as Hle.
    apply (Qmult_le_r _ _ _ Hb') in Hle.
    rewrite Hx, <- inject_Z_mult, <- Zle_Qle in Hle. exact Hle.
Qed.

(** The bounds determine the value: any [c] within them is the ceiling. *)
Lemma Math_ceil_div_unique (a b c : Z) :
  0 < b -> (c - 1) * b < a <= c * b -> Math_ceil_div a b = c.
Proof.
  intros Hb Hc. pose proof (Math_ceil_div_bounds a b Hb). nia.
Qed.

Lemma Math_ceil_div_formula (a b : Z) :
  0 < b -> Math_ceil_div a b = (a + b - 1) / b.
Proof.
  intros Hb. apply Math_ceil_div_unique; [exact Hb|].
  pose proof (Z.div_mod (a + b - 1) b ltac:(lia)).
  pose proof (Z.mod_pos_bound (a + b - 1) b Hb). nia.
Qed.

(** C5. For a paginator built with [0 <= total] and [1 <= perPage],
    [lastPage] is [max(ceil(total / perPage), 1)], where the ceiling [c]
    is the integer with [(c - 1) * perPage < total <= c * perPage], and
    [hasTotal] holds exactly when [total > 0]. *)
Theorem lastPage_hasTotal_spec {Row : Type}
    (total perPage currentPage : Z) (rows : list Row) :
  0 <= total -> 1 <= perPage ->
  let p := new_SimplePaginator total perPage currentPage rows in
  let c := (total + perPage - 1) / perPage in
  (c - 1) * perPage < total <= c * perPage
  /\ Math_ceil_div total perPage = c
  /\ lastPage p = Z.max c 1
  /\ hasTotal p = (0 <? total).
Proof.
  intros Htotal HperPage p c.
  assert (Hc : Math_ceil_div total perPage = c)
    by (apply Math_ceil_div_formula; lia).
  pose proof (Math_ceil_div_bounds total perPage ltac:(lia)) as Hb.
  rewrite Hc in Hb.
  split; [exact Hb|]. split; [exact Hc|]. split.
  - unfold p. simpl. rewrite Hc. reflexivity.
  - reflexivity.
Qed.

(** C5 at 95 records in pages of 20: five pages. *)
Lemma lastPage_hasTotal_witness :
  let p := new_SimplePaginator 95 20 1 (@nil nat) in
  (5 - 1) * 20 < 95 <= 5 * 20
  /\ Math_ceil_div 95 20 = 5
  /\ lastPage p = Z.max 5 1
  /\ hasTotal p = true.
Proof.
  exact (lastPage_hasTotal_spec 95 20 1 (@nil nat) ltac:(lia) ltac:(lia)).
Defined.

(** With no records at all the last page is still page 1. *)
Lemma lastPage_of_empty {Row : Type} (perPage currentPage : Z) (rows : list Row) :
  1 <= perPage ->
  lastPage (new_SimplePaginator 0 perPage currentPage rows) = 1.
Proof.
  intros H. simpl. rewrite Math_ceil_div_formula by lia.
  rewrite Z.div_small by lia. reflexivity.
Qed.

Lemma hasMorePages_spec {Row : Type} (n size page : Z) (rows : list Row) :
  let p := new_SimplePaginator n size page rows in
  hasMorePages p = (currentPage p <? lastPage p)
  /\ hasPages p = negb (lastPage p =? 1).
Proof. split; reflexivity. Qed.

(** C6. [getPreviousPageUrl()] is [null] exactly when [currentPage <= 1]
    and is [getUrl(currentPage - 1)] otherwise; [getNextPageUrl()] is
    [null] exactly when [hasMorePages] is false and is
    [getUrl(currentPage + 1)] otherwise. Both are total: they return a
    string or [null] on every paginator. *)
Theorem page_urls_null_iff {Row : Type} (p : SimplePaginator Row) :
  (getPreviousPageUrl p = None <-> currentPage p <= 1)
  /\ getPreviousPageUrl p =
       (if currentPage p <=? 1 then None else Some (getUrl p (currentPage p - 1)))
  /\ (getNextPageUrl p = None <-> hasMorePages p = false)
  /\ getNextPageUrl p =
       (if hasMorePages p then Some (getUrl p (currentPage p + 1)) else None).
Proof.
  unfold getPreviousPageUrl, getNextPageUrl.
  destruct (Z.ltb_spec 1 (currentPage p)) as [Hlt|Hle];
    destruct (Z.leb_spec (currentPage p) 1) as [Hle'|Hlt'];
    destruct (hasMorePages p); try lia;
    repeat split; intros; try reflexivity; try lia; try discriminate.
Qed.

(** C7. [getUrl(page)] is the base URL, [?], and the serialized
    parameters, in which the [page] parameter is the requested page
    raised to at least 1: reading the query string back gives
    [max(page, 1)], that is [1] for every [page < 1] and [page] itself
    otherwise. *)
Theorem getUrl_page_roundtrip {Row : Type} (p : SimplePaginator Row) (page : Z) :
  let q := Qs.stringify (getUrl_params p page) in
  getUrl p page = url p ++ "?" ++ q
  /\ Qs.page_param q = Some (Z.max page 1)
  /\ Qs.page_param q = (if page <? 1 then Some 1 else Some page).
Proof.
  intros q. unfold q, getUrl_params.
  rewrite QsFacts.page_param_stringify_assign.
  split; [reflexivity|].
  destruct (Z.ltb_spec page 1); split; f_equal; lia.
Qed.

(** The parameters set with [queryString] are written as well and never
    replace the page: a [page] entry among them is overwritten. *)
Lemma getUrl_overrides_user_page :
  getUrl (baseUrl "/posts"
            (queryString [("page", Qs.QsStr "9"); ("q", Qs.QsStr "a b")]
               (new_SimplePaginator 95 20 1 (@nil nat)))) 0
  = "/posts?page=1&q=a%20b".
Proof. reflexivity. Qed.

(** [getUrlsForRange(2, 4)] with [currentPage = 3]. *)
Lemma getUrlsForRange_example :
  getUrlsForRange (new_SimplePaginator 95 20 3 (@nil nat)) 2 4
  = [ mkPageLink "/?page=2" 2 false;
      mkPageLink "/?page=3" 3 true;
      mkPageLink "/?page=4" 4 false ].
Proof. reflexivity. Qed.

End PaginatorSpec.

(* ===================================================================== *)
(** * Properties of the pivot helpers and of the many-to-many builder *)
(* ===================================================================== *)

Module ManyToManySpec.
Import ManyToMany.

Lemma includes_dot_app (s t : string) :
  includes_dot (s ++ t) = includes_dot s || includes_dot t.
Proof.
  induction s as [|c s IH]; simpl; [reflexivity|].
  destruct (Ascii.eqb c "."); [reflexivity | exact IH].
Qed.

(** A name qualified with a table has a dot. *)
Lemma includes_dot_qualified (table column : string) :
  includes_dot (table ++ "." ++ column) = true.
Proof.
  rewrite includes_dot_app. simpl. apply orb_true_r.
Qed.

Lemma qualified_not_bare (table column : string) :
  includes_dot column = false -> table ++ "." ++ column <> column.
Proof.
  intros Hbare E. rewrite <- E, includes_dot_qualified in Hbare. discriminate.
Qed.

Section Helper.
Context {Q : Type} `{PivotQuery Q}.

(** C10. [PivotHelpers.wherePivot] prefixes the key with the pivot table
    in the two- and three-argument shapes (an operator or a value is
    given) and forwards it as it is in the one-argument shape (both are
    [undefined]); the operator and the value go through unchanged. *)
Theorem wherePivot_prefixes_unless_one_argument
    (variation : Variation) (key : string) (operator value : JSValue) (query : Q) :
  PivotHelpers.wherePivot variation key operator value query =
  query_where (PivotHelpers.where_method variation)
    (if bool_decide (operator = VUndefined /\ value = VUndefined)
     then key
     else PivotHelpers.prefixPivotTable query key)
    operator value query.
Proof.
  unfold PivotHelpers.wherePivot.
  destruct (decide (value = VUndefined)) as [->|Hvalue];
    destruct (decide (operator = VUndefined)) as [->|Hoperator];
    repeat case_bool_decide; try reflexivity; tauto.
Qed.

(** The method the helper calls is chosen by the variation alone. *)
Lemma where_method_cases (variation : Variation) :
  PivotHelpers.where_method variation =
  match variation with
  | And => "where" | Or => "orWhere" | Not => "whereNot" | OrNot => "orWhereNot"
  end.
Proof. destruct variation; reflexivity. Qed.

Lemma prefixPivotTable_dotted (query : Q) (column : string) :
  includes_dot column = true -> PivotHelpers.prefixPivotTable query column = column.
Proof. intros Hd. unfold PivotHelpers.prefixPivotTable. rewrite Hd. reflexivity. Qed.

End Helper.

(** Case analysis on the name used in a dynamic call. *)
Ltac by_method_name :=
  repeat match goal with
         | |- context [String.eqb ?m ?name] =>
             destruct (String.eqb_spec m name) as [->|?]; [reflexivity|]
         end;
  reflexivity.

Section Builder.
Context `{Orm}.

Implicit Types b : ManyToManyQueryBuilder.

(** Every call on the generic builder leaves the builder's own flags. *)
Lemma super_flags method args b :
  appliedConstraints (super method args b) = appliedConstraints b
  /\ pivotQuery (super method args b) = pivotQuery b
  /\ cherryPickingKeys (super method args b) = cherryPickingKeys b
  /\ relation (super method args b) = relation b
  /\ parent (super method args b) = parent b
  /\ calls (super method args b) = (calls b ++ [Call method args])%list.
Proof. repeat split. Qed.

Lemma related_calls method key rest b :
  related method key rest b =
  super method (ACol (prefixRelatedTable b key) :: rest) b.
Proof. reflexivity. Qed.

Lemma dispatch_where_related method key operator value b :
  dispatch_where method key operator value b =
  related method key [AVal operator; AVal value] b.
Proof.
  unfold dispatch_where.
  by_method_name.
Qed.

Lemma dispatch_whereNull_related method key b :
  dispatch_whereNull method key b = related method key [] b.
Proof.
  unfold dispatch_whereNull.
  by_method_name.
Qed.

Lemma dispatch_whereIn_related method key value b :
  dispatch_whereIn method key value b = related method key [AValues value] b.
Proof.
  unfold dispatch_whereIn.
  by_method_name.
Qed.

(** *** The one-shot flag survives every step of [applyConstraints] *)

Lemma applied_helper_wherePivot variation key operator value b :
  appliedConstraints (PivotHelpers.wherePivot variation key operator value b)
  = appliedConstraints b.
Proof.
  unfold PivotHelpers.wherePivot. simpl.
  repeat case_bool_decide; rewrite dispatch_where_related; reflexivity.
Qed.

Lemma applied_helper_whereInPivot variation key value b :
  appliedConstraints (PivotHelpers.whereInPivot variation key value b)
  = appliedConstraints b.
Proof.
  unfold PivotHelpers.whereInPivot. simpl.
  destruct value; rewrite dispatch_whereIn_related; reflexivity.
Qed.

Lemma applied_addWhereConstraints b :
  appliedConstraints (addWhereConstraints b) = appliedConstraints b.
Proof.
  unfold addWhereConstraints, whereInPivot, wherePivot.
  destruct (parent b).
  - rewrite applied_helper_wherePivot. reflexivity.
  - rewrite applied_helper_whereInPivot. reflexivity.
Qed.

Lemma applied_select columns b :
  appliedConstraints (select columns b) = appliedConstraints b.
Proof. reflexivity. Qed.

Lemma applied_select_pivotColumns columns b :
  appliedConstraints (select_pivotColumns columns b) = appliedConstraints b.
Proof. reflexivity. Qed.

Lemma applyConstraints_sets_flag b :
  appliedConstraints (applyConstraints b) = true.
Proof.
  unfold applyConstraints.
  destruct (appliedConstraints b) eqn:Happlied; [exact Happlied|].
  repeat match goal with
         | |- context [if ?c then _ else _] => destruct c
         end;
    rewrite applied_addWhereConstraints; reflexivity.
Qed.

(** Once the flag is set the call is a no-op. *)
Lemma applyConstraints_when_applied b :
  appliedConstraints b = true -> applyConstraints b = b.
Proof. intros Happlied. unfold applyConstraints. rewrite Happlied. reflexivity. Qed.

(** C2. Calling [applyConstraints] twice leaves the builder exactly as
    calling it once: the first call sets [appliedConstraints], and the
    second finds it set and returns at once, so no join, selection or
    pivot predicate is added to the calls made on the underlying query. *)
Theorem applyConstraints_idempotent b :
  applyConstraints (applyConstraints b) = applyConstraints b
  /\ appliedConstraints (applyConstraints b) = true
  /\ calls (applyConstraints (applyConstraints b)) = calls (applyConstraints b).
Proof.
  assert (Hsame : applyConstraints (applyConstraints b) = applyConstraints b)
    by (apply applyConstraints_when_applied, applyConstraints_sets_flag).
  split; [exact Hsame|]. split; [apply applyConstraints_sets_flag|].
  rewrite Hsame. reflexivity.
Qed.

(** The first call does add to the query: the idempotence above is not
    that of a call that never does anything. *)
Lemma applyConstraints_adds_calls b :
  appliedConstraints b = false ->
  (length (calls b) < length (calls (applyConstraints b)))%nat.
Proof.
  intros Happlied. unfold applyConstraints. rewrite Happlied.
  unfold addWhereConstraints, whereInPivot, wherePivot,
    PivotHelpers.whereInPivot, PivotHelpers.wherePivot.
  repeat match goal with
         | |- context [if ?c then _ else _] => destruct c
         | |- context [match ?p with ParentRow _ => _ | ParentRows _ => _ end] =>
             destruct p
         end;
    simpl; rewrite ?dispatch_where_related, ?dispatch_whereIn_related;
    unfold calls; simpl; rewrite ?length_app; simpl; lia.
Qed.

(** C9. [clone()] applies the constraints to the builder it is called
    on: afterwards the original is [applyConstraints] of what it was, the
    original and the clone both have [appliedConstraints] set, and a
    further [applyConstraints] changes neither, whether or not the
    original had applied its constraints before. *)
Theorem clone_applies_constraints_to_original b :
  fst (clone b) = applyConstraints b
  /\ appliedConstraints (fst (clone b)) = true
  /\ appliedConstraints (snd (clone b)) = true
  /\ applyConstraints (fst (clone b)) = fst (clone b)
  /\ applyConstraints (snd (clone b)) = snd (clone b).
Proof.
  assert (Hclone : appliedConstraints (snd (clone b)) = true).
  { unfold clone. cbn [snd]. unfold reporterData, debug. cbn [appliedConstraints].
    apply applyConstraints_sets_flag. }
  split; [reflexivity|]. split; [apply applyConstraints_sets_flag|].
  split; [exact Hclone|]. split.
  - apply applyConstraints_when_applied, applyConstraints_sets_flag.
  - apply applyConstraints_when_applied, Hclone.
Qed.

(** The clone starts from the calls already made on the original, so the
    join and the pivot predicate are in it once. *)
Lemma clone_copies_calls b :
  isPivotOnlyQuery (applyConstraints b) = false ->
  calls (snd (clone b)) = calls (applyConstraints b).
Proof.
  intros Hpivot. unfold clone. cbn [snd].
  unfold set_isPivotOnlyQuery. rewrite Hpivot. reflexivity.
Qed.

(** *** Which table a bare column is qualified with *)

Lemma prefixRelatedTable_bare b column :
  includes_dot column = false ->
  prefixRelatedTable b column = relatedTable b ++ "." ++ column.
Proof. intros Hbare. unfold prefixRelatedTable. rewrite Hbare. reflexivity. Qed.

Lemma prefixRelatedTable_dotted b column :
  includes_dot column = true -> prefixRelatedTable b column = column.
Proof. intros Hd. unfold prefixRelatedTable. rewrite Hd. reflexivity. Qed.

(** [where(k, op, v)] sends the key qualified with the related table. *)
Lemma where_qualifies_related b key operator value :
  includes_dot key = false ->
  calls (where_ key operator value b) =
  (calls b ++ [Call "where" [ACol (relatedTable b ++ "." ++ key);
                             AVal operator; AVal value]])%list.
Proof.
  intros Hbare. unfold where_. rewrite related_calls, prefixRelatedTable_bare by exact Hbare.
  reflexivity.
Qed.

Lemma where_keeps_dotted b key operator value :
  includes_dot key = true ->
  calls (where_ key operator value b) =
  (calls b ++ [Call "where" [ACol key; AVal operator; AVal value]])%list.
Proof.
  intros Hd. unfold where_. rewrite related_calls, prefixRelatedTable_dotted by exact Hd.
  reflexivity.
Qed.

(** What [wherePivot(k, op, v)] of the builder sends, in every shape:
    the helper's key goes through the builder's own [where]. *)
Lemma wherePivot_calls b key operator value :
  calls (wherePivot key operator value b) =
  (calls b ++
   [Call "where"
      [ACol (prefixRelatedTable b
               (if bool_decide (operator = VUndefined /\ value = VUndefined)
                then key else PivotHelpers.prefixPivotTable b key));
       AVal operator; AVal value]])%list.
Proof.
  unfold wherePivot, PivotHelpers.wherePivot.
  destruct (decide (value = VUndefined)) as [->|Hvalue];
    destruct (decide (operator = VUndefined)) as [->|Hoperator];
    repeat case_bool_decide; try tauto; reflexivity.
Qed.

(** On a builder that joins the pivot table, [wherePivot] qualifies a
    bare key with the pivot table. *)
Lemma wherePivot_qualifies_pivot b key operator value :
  includes_dot key = false ->
  isPivotOnlyQuery b = false ->
  operator <> VUndefined \/ value <> VUndefined ->
  calls (wherePivot key operator value b) =
  (calls b ++ [Call "where" [ACol (pivotTable (relation b) ++ "." ++ key);
                             AVal operator; AVal value]])%list.
Proof.
  intros Hbare Hpivot Hshape. rewrite wherePivot_calls.
  case_bool_decide; [tauto|].
  unfold PivotHelpers.prefixPivotTable. simpl. rewrite Hbare, Hpivot.
  rewrite prefixRelatedTable_dotted by apply includes_dot_qualified.
  reflexivity.
Qed.

Lemma wherePivot_keeps_dotted b key operator value :
  includes_dot key = true ->
  calls (wherePivot key operator value b) =
  (calls b ++ [Call "where" [ACol key; AVal operator; AVal value]])%list.
Proof.
  intros Hd. rewrite wherePivot_calls.
  rewrite (prefixPivotTable_dotted b key Hd).
  destruct (bool_decide _); rewrite prefixRelatedTable_dotted by exact Hd; reflexivity.
Qed.

(** On a pivot-only builder the helper leaves a bare key bare, and the
    builder's [where], which the helper calls, then qualifies it with the
    related table. *)
Lemma wherePivot_pivot_only b key operator value :
  includes_dot key = false ->
  isPivotOnlyQuery b = true ->
  PivotHelpers.prefixPivotTable b key = key
  /\ calls (wherePivot key operator value b) =
     (calls b ++ [Call "where" [ACol (relatedTable b ++ "." ++ key);
                                AVal operator; AVal value]])%list.
Proof.
  intros Hbare Hpivot.
  assert (Hkey : PivotHelpers.prefixPivotTable b key = key).
  { unfold PivotHelpers.prefixPivotTable. simpl. rewrite Hbare, Hpivot. reflexivity. }
  split; [exact Hkey|].
  rewrite wherePivot_calls, Hkey.
  destruct (bool_decide _); rewrite prefixRelatedTable_bare by exact Hbare; reflexivity.
Qed.

(** *** Pivot timestamps of the fetched rows *)

Lemma normalized_idempotent v : normalized (normalized v) = normalized v.
Proof.
  destruct v as [| | | | |s| |]; simpl; try reflexivity.
  destruct (String.eqb s "") eqn:Hs; simpl; [rewrite Hs|]; reflexivity.
Qed.

Lemma transform_timestamp_lookup (timestamp key : string) (row : ResultRow) :
  extras (transform_timestamp timestamp row) !! key =
  if decide (key = timestamp) then normalized <$> extras row !! key
  else extras row !! key.
Proof.
  unfold transform_timestamp.
  destruct (decide (key = timestamp)) as [->|Hne].
  - destruct (extras row !! timestamp) as [v|] eqn:Hv; [|simpl; rewrite Hv; reflexivity].
    destruct v as [| |[]|n| |s|d|dt]; simpl; rewrite ?Hv; try reflexivity.
    + destruct (Z.eqb_spec n 0); simpl; rewrite Hv; reflexivity.
    + destruct (String.eqb s "") eqn:Hs; simpl; [exact Hv|].
      apply lookup_insert_eq.
    + apply lookup_insert_eq.
  - destruct (extras row !! timestamp) as [v|]; [|reflexivity].
    destruct v as [| |[]|n| |s|d|dt]; simpl; try reflexivity.
    + destruct (Z.eqb_spec n 0); reflexivity.
    + destruct (String.eqb s ""); simpl; [reflexivity|].
      apply lookup_insert_ne. congruence.
    + apply lookup_insert_ne. congruence.
Qed.

Lemma row_transformer_lookup (timestamps : list string) (key : string) (row : ResultRow) :
  extras (row_transformer timestamps row) !! key =
  if decide (key ∈ timestamps) then normalized <$> extras row !! key
  else extras row !! key.
Proof.
  unfold row_transformer. revert row.
  induction timestamps as [|t ts IH]; intros row; cbn [fold_left].
  - destruct (decide (key ∈ [])) as [Hin|_]; [inversion Hin | reflexivity].
  - rewrite IH, transform_timestamp_lookup.
    destruct (decide (key = t)) as [->|Hne].
    + rewrite (decide_True (P := t ∈ t :: ts)) by apply list_elem_of_here.
      destruct (decide (t ∈ ts)); [|reflexivity].
      destruct (extras row !! t); simpl; [|reflexivity].
      rewrite normalized_idempotent. reflexivity.
    + destruct (decide (key ∈ ts)) as [Hin|Hnotin].
      * rewrite decide_True by (apply list_elem_of_further; exact Hin). reflexivity.
      * rewrite decide_False; [reflexivity|].
        intros Hin. apply elem_of_cons in Hin as [?|?]; contradiction.
Qed.

Lemma exec_is_map b (fetched : list ResultRow) :
  exec b fetched = map (row_transformer (timestamp_aliases b)) fetched.
Proof.
  unfold exec, timestamp_aliases.
  destruct (map _ (pivotTimestamps (relation b))) as [|a l] eqn:Hl; simpl; [|reflexivity].
  induction fetched as [|row rows IH]; simpl; [reflexivity|].
  rewrite <- IH. reflexivity.
Qed.

(** C8. After [exec], for every declared pivot timestamp column, the
    value under its alias in a row's extras is left as it was when it is
    absent or falsy (the empty string is a falsy value); otherwise a
    string is replaced by the datetime parsed from it, a native [Date]
    by the datetime converted from it, and a value that is neither is
    left as it was. The other extras are untouched. *)
Theorem exec_normalizes_pivot_timestamps b (fetched : list ResultRow)
    (i : nat) (row : ResultRow) :
  fetched !! i = Some row ->
  exists row',
    exec b fetched !! i = Some row'
    /\ (forall column, column ∈ pivotTimestamps (relation b) ->
        let key := pivotAlias (relation b) column in
        match extras row !! key with
        | None => extras row' !! key = None
        | Some v =>
            extras row' !! key =
            Some (if truthy v then
                    match v with
                    | VStr s => VDateTime (DateTime_fromSQL s)
                    | VDate d => VDateTime (DateTime_fromJSDate d)
                    | _ => v
                    end
                  else v)
        end)
    /\ (forall key, key ∉ timestamp_aliases b -> extras row' !! key = extras row !! key).
Proof.
  intros Hrow. exists (row_transformer (timestamp_aliases b) row).
  split; [|split].
  - rewrite exec_is_map, list_lookup_fmap, Hrow. reflexivity.
  - intros column Hcolumn key. rewrite row_transformer_lookup.
    rewrite decide_True by (apply list_elem_of_fmap; eauto).
    destruct (extras row !! key) as [v|]; [|reflexivity].
    destruct v as [| |[]|n| |s|d|dt]; try reflexivity.
    + cbn. destruct (n =? 0); reflexivity.
    + cbn. destruct (String.eqb s ""); reflexivity.
  - intros key Hkey. rewrite row_transformer_lookup, decide_False by exact Hkey.
    reflexivity.
Qed.

End Builder.

(** C1, at a pivot-only builder: the helper leaves [status] bare, as the
    claim has it, but the predicate that reaches the generic builder is
    on [skills.status], the related table, which a pivot-only query does
    not select from. *)
Theorem wherePivot_on_pivot_only_builder :
  let b := set_isPivotOnlyQuery true skills_of_user in
  isPivotOnlyQuery b = true
  /\ PivotHelpers.prefixPivotTable b "status" = "status"
  /\ calls (wherePivot "status" (VStr "=") (VStr "active") b) =
     [ Call "pojo" [];
       Call "where" [ACol "skills.status"; AVal (VStr "="); AVal (VStr "active")] ]
  /\ calls (applyConstraints b) =
     [ Call "pojo" [];
       Call "from" [ACol "skill_user"];
       Call "wrapExisting" [];
       Call "where" [ACol "skills.user_id"; AVal (VNum 1); AVal VUndefined] ].
Proof. repeat split. Qed.

(** On the same relation without the pivot-only flag the two families do
    qualify [status] with different tables. *)
Lemma where_and_wherePivot_differ :
  calls (where_ "status" (VStr "active") VUndefined skills_of_user) =
    [ Call "where" [ACol "skills.status"; AVal (VStr "active"); AVal VUndefined] ]
  /\ calls (wherePivot "status" (VStr "active") VUndefined skills_of_user) =
    [ Call "where" [ACol "skill_user.status"; AVal (VStr "active"); AVal VUndefined] ].
Proof. split; reflexivity. Qed.

(** The empty string is a falsy value: [exec] leaves it as it is, it is
    not parsed. *)
Lemma empty_string_timestamp_is_kept :
  let row := mkResultRow {[ "pivot_created_at" := VStr "" ]} in
  "created_at" ∈ pivotTimestamps (relation skills_of_user)
  /\ extras row !! "pivot_created_at" = Some (VStr "")
  /\ exec skills_of_user [row] = [row]
  /\ ~ (exists row', exec skills_of_user [row] = [row']
        /\ extras row' !! "pivot_created_at" = Some (VDateTime (DateTime_fromSQL ""))).
Proof.
  split; [apply list_elem_of_here|]. split; [reflexivity|]. split; [reflexivity|].
  intros (row' & Hexec & Hlookup).
  change (exec skills_of_user [mkResultRow {[ "pivot_created_at" := VStr "" ]}])
    with [mkResultRow {[ "pivot_created_at" := VStr "" ]}] in Hexec.
  injection Hexec as <-. vm_compute in Hlookup. discriminate.
Qed.

(** C8 at one fetched row with a textual timestamp and one other extra. *)
Lemma exec_normalizes_pivot_timestamps_witness :
  let row := mkResultRow {[ "pivot_created_at" := VStr "2024-05-01 10:00:00";
                             "pivot_proficiency" := VStr "expert" ]} in
  exists row',
    exec skills_of_user [row] !! 0%nat = Some row'
    /\ extras row' !! "pivot_created_at"
       = Some (VDateTime (DateTime_fromSQL "2024-05-01 10:00:00"))
    /\ extras row' !! "pivot_proficiency" = Some (VStr "expert").
Proof.
  intros row.
  destruct (exec_normalizes_pivot_timestamps skills_of_user [row] 0 row eq_refl)
    as (row' & Hexec & Htimestamps & Hothers).
  exists row'. split; [exact Hexec|]. split.
  - exact (Htimestamps "created_at" (list_elem_of_here _ _)).
  - rewrite Hothers; [reflexivity|].
    intros Hin. vm_compute in Hin. 
    apply elem_of_cons in Hin as [Hin|Hin]; [discriminate | inversion Hin].
Defined.

End ManyToManySpec.

(* ===================================================================== *)
(** * The error of getValue under paginate *)
(* ===================================================================== *)

Module ManyToManyErrors.
Import ManyToMany.

Section Errors.
Context `{OrmErrors}.
Implicit Types b : ManyToManyQueryBuilder.

(** The loop over the parents throws the first error there is, and
    otherwise returns the values of the run without errors. *)
Lemma map_getValue_outcome (rows : list LucidRow) key relation action :
  Fallible.map_getValue rows key relation action =
  match head (omap (fun model => getValue_error model key relation action) rows) with
  | Some message => Thrown message
  | None => Returned (map (fun model => getValue model key relation action) rows)
  end.
Proof.
  induction rows as [|model rows IH]; [reflexivity|].
  cbn [Fallible.map_getValue omap list_omap map]. unfold Fallible.getValue.
  destruct (getValue_error model key relation action) as [message|]; [reflexivity|].
  rewrite IH.
  destruct (head _); reflexivity.
Qed.

Lemma addWhereConstraints_outcome b :
  Fallible.addWhereConstraints b =
  match Fallible.parent_value_error b with
  | Some message =>
      (match parent b with ParentRow _ => b | ParentRows _ => wrapExisting b end,
       Thrown message)
  | None => (addWhereConstraints b, Returned tt)
  end.
Proof.
  unfold Fallible.addWhereConstraints, Fallible.parent_value_error, addWhereConstraints.
  destruct (parent b) as [row|rows].
  - unfold Fallible.getValue.
    destruct (getValue_error row _ _ _); reflexivity.
  - cbv zeta.
    change (relation (wrapExisting b)) with (relation b).
    rewrite map_getValue_outcome.
    destruct (head _); reflexivity.
Qed.

(** The builder on which the first [applyConstraints] adds the
    predicate: the flag is set, and the parent, the relation and the
    operation are those of [b]. *)
Lemma applyConstraints_reaches_predicate b :
  appliedConstraints b = false ->
  exists inner,
    Fallible.applyConstraints b = Fallible.addWhereConstraints inner
    /\ applyConstraints b = addWhereConstraints inner
    /\ appliedConstraints inner = true
    /\ frame inner = frame b.
Proof.
  intros Happlied. unfold Fallible.applyConstraints, applyConstraints.
  rewrite Happlied. cbv zeta.
  repeat match goal with
         | |- context [if ?c then _ else _] => destruct c
         end;
    eexists; repeat split.
Qed.

Lemma parent_value_error_frame b b' :
  frame b' = frame b -> Fallible.parent_value_error b' = Fallible.parent_value_error b.
Proof.
  unfold frame, Fallible.parent_value_error, queryAction.
  intros [= _ _ _ _ _ _ -> -> ->]. reflexivity.
Qed.

Lemma applyConstraints_outcome b :
  snd (Fallible.applyConstraints b) =
    (if appliedConstraints b then Returned tt
     else match Fallible.parent_value_error b with
          | Some message => Thrown message
          | None => Returned tt
          end)
  /\ appliedConstraints (fst (Fallible.applyConstraints b)) = true
  /\ (appliedConstraints b = true \/ Fallible.parent_value_error b = None ->
      fst (Fallible.applyConstraints b) = applyConstraints b).
Proof.
  destruct (appliedConstraints b) eqn:Happlied.
  - unfold Fallible.applyConstraints, applyConstraints. rewrite Happlied.
    cbn [fst snd]. auto.
  - destruct (applyConstraints_reaches_predicate b Happlied)
      as (inner & -> & -> & Hflag & Hframe).
    rewrite addWhereConstraints_outcome, (parent_value_error_frame _ _ Hframe).
    destruct (Fallible.parent_value_error b) as [message|]; cbn [fst snd].
    + split; [reflexivity|]. split.
      * destruct (parent inner); exact Hflag.
      * intros [|]; discriminate.
    + split; [reflexivity|]. split; [|reflexivity].
      rewrite ManyToManySpec.applied_addWhereConstraints. exact Hflag.
Qed.

(** The flag is set before [getValue] is called: after a first call,
    whether it returned or threw, a second one does nothing. *)
Lemma applyConstraints_after_first_call b :
  let b' := fst (Fallible.applyConstraints b) in
  Fallible.applyConstraints b' = (b', Returned tt).
Proof.
  intros b'. destruct (applyConstraints_outcome b) as (_ & Hflag & _).
  fold b' in Hflag. unfold Fallible.applyConstraints. rewrite Hflag. reflexivity.
Qed.

(** [clone] throws what [applyConstraints] throws, and otherwise returns
    the builder of the run without errors. *)
Lemma clone_outcome b :
  (forall message,
     snd (Fallible.clone b) = Thrown message <->
     appliedConstraints b = false /\ Fallible.parent_value_error b = Some message)
  /\ (appliedConstraints b = true \/ Fallible.parent_value_error b = None ->
      Fallible.clone b = (fst (clone b), Returned (snd (clone b)))).
Proof.
  destruct (applyConstraints_outcome b) as (Houtcome & _ & Hagree).
  unfold Fallible.clone.
  destruct (Fallible.applyConstraints b) as [b' [[]|e]];
    cbn [fst snd] in Houtcome, Hagree |- *.
  - split.
    + intros message. split; [discriminate|].
      intros [Happlied Herror]. rewrite Happlied, Herror in Houtcome. discriminate.
    + intros Hreturns. rewrite (Hagree Hreturns). reflexivity.
  - destruct (appliedConstraints b); [discriminate|].
    destruct (Fallible.parent_value_error b) as [e'|]; [|discriminate].
    injection Houtcome as ->. split.
    + intros message. split.
      * intros [= <-]. split; reflexivity.
      * intros [_ [= <-]]. reflexivity.
    + intros [|]; discriminate.
Qed.

End Errors.


(** Once the user has its [id], the same call returns. *)
Lemma paginate_returns_with_key :
  let b := @new_ManyToManyQueryBuilder unsaved_orm (mkKnex "select" [])
             (@ParentRow unsaved_orm (Some 1)) skills in
  snd (@Fallible.paginate unsaved_orm unsaved_orm_errors 1 None b)
  = Returned (Call "paginate" [AVal (VNum 1); AVal (VNum 20)]).
Proof. reflexivity. Qed.

End ManyToManyErrors.

(* ===================================================================== *)
(** * Properties of associate *)
(* ===================================================================== *)

Module BelongsToSpec.
Import BelongsTo.

Lemma keyed_fields (row : LucidRow) (key : Z) :
  table (keyed row key) = table row
  /\ primaryKey (keyed row key) = primaryKey row
  /\ trx (keyed row key) = trx row
  /\ is_Some (attributes (keyed row key) !! primaryKey row).
Proof.
  unfold keyed. destruct (attributes row !! primaryKey row) eqn:Hk; simpl.
  - rewrite Hk. eauto.
  - rewrite lookup_insert_eq. eauto.
Qed.

(** An attribute that is there is not touched when the key is given. *)
Lemma keyed_keeps (row : LucidRow) (key : Z) (name : string) :
  is_Some (attributes row !! name) ->
  attributes (keyed row key) !! name = attributes row !! name.
Proof.
  intros Hsome. unfold keyed.
  destruct (attributes row !! primaryKey row) eqn:Hk; simpl; [reflexivity|].
  apply lookup_insert_ne. intros <-. rewrite Hk in Hsome. destruct Hsome; discriminate.
Qed.

(** The three ways a [save] can end. *)
Lemma save_cases (r : Ref) (w : World) :
  (exists rest, faults w = true :: rest
                /\ save r w = (mkWorld (heap w) (db w) rest, Thrown "persist failed"))
  \/ (exists w' t, save r w = (w', Thrown "Transaction query already complete")
                   /\ trx (heap w r) = Some t /\ pending (db w) !! t = None
                   /\ heap w' = heap w
                   /\ committed (db w') = committed (db w)
                   /\ pending (db w') = pending (db w))
  \/ (exists w', save r w = (w', Returned tt)
                 /\ heap w' = update_row (heap w) r
                                (set_persisted (keyed (heap w r) (next_key (db w))))
                 /\ faults w' = tail (faults w)
                 /\ stored (trx (heap w r))
                      (image (keyed (heap w r) (next_key (db w)))) (db w) (db w')).
Proof.
  unfold save, next_fault, with_primary_key, write, get_row, put_row, get_db, put_db,
    throw, mbind, M_bind, mret, M_ret, bind, ret, keyed, stored, image.
  destruct (faults w) as [|[] rest] eqn:Hfaults; simpl.
  - right.
    destruct (attributes (heap w r) !! primaryKey (heap w r)) eqn:Hkey; simpl;
      destruct (trx (heap w r)) as [t|] eqn:Htrx; simpl;
      try destruct (pending (db w) !! t) as [writes|] eqn:Hpending; simpl;
      rewrite ?Hfaults; eauto 10.
  - left. eauto.
  - right.
    destruct (attributes (heap w r) !! primaryKey (heap w r)) eqn:Hkey; simpl;
      destruct (trx (heap w r)) as [t|] eqn:Htrx; simpl;
      try destruct (pending (db w) !! t) as [writes|] eqn:Hpending; simpl;
      eauto 10.
Qed.

Lemma associate_unfold relation parent client related w :
  associate relation parent client related w =
  managedTransaction (parent_trx_or_client (heap w parent) client)
    (associate_steps relation parent related) w.
Proof. reflexivity. Qed.

Lemma associate_steps_unfold relation parent related t w :
  associate_steps relation parent related t w =
  match save related (before_related_save related t w) with
  | (w2, Returned _) => save parent (before_parent_save relation parent related t w2)
  | (w2, Thrown e) => (w2, Thrown e)
  end.
Proof.
  unfold associate_steps, hydrateForPersistence, get_row, put_row,
    mbind, M_bind, bind. cbn -[save].
  destruct (save related _) as [w2 [[]|e]]; reflexivity.
Qed.

Lemma update_row_same h r row : update_row h r row r = row.
Proof. unfold update_row. rewrite Nat.eqb_refl. reflexivity. Qed.

Lemma update_row_other h r row r' : r' <> r -> update_row h r row r' = h r'.
Proof.
  intros Hne. unfold update_row.
  destruct (Nat.eqb_spec r' r); [contradiction | reflexivity].
Qed.

(** *** The store while the steps run in an open transaction *)

Lemma associate_steps_store relation parent related t writes w :
  pending (db w) !! t = Some writes ->
  let result := associate_steps relation parent related t w in
  committed (db (fst result)) = committed (db w)
  /\ match snd result with
     | Returned _ =>
         exists written,
           pending (db (fst result)) =
           <[t := (writes ++ [written; image (heap (fst result) parent)])%list]>
             (pending (db w))
     | Thrown _ =>
         exists writes', pending (db (fst result)) = <[t := writes']> (pending (db w))
     end.
Proof.
  intros Hopen result. unfold result. rewrite associate_steps_unfold.
  set (w1 := before_related_save related t w).
  assert (Htrx1 : trx (heap w1 related) = Some t)
    by (unfold w1, before_related_save; simpl; rewrite update_row_same; reflexivity).
  destruct (save_cases related w1)
    as [(rest & _ & ->) | [(w2 & t' & -> & Ht' & Hnone & _) | (w2 & -> & Hheap2 & _ & Hdb2)]].
  - simpl. split; [reflexivity|]. exists writes. rewrite insert_id by exact Hopen. reflexivity.
  - rewrite Htrx1 in Ht'. injection Ht' as <-. simpl in Hnone. congruence.
  - rewrite Htrx1 in Hdb2. destruct Hdb2 as (Hc2 & writes2 & Hw2 & Hp2).
    simpl in Hw2, Hc2, Hp2. rewrite Hopen in Hw2. injection Hw2 as <-.
    set (w3 := before_parent_save relation parent related t w2).
    assert (Htrx3 : trx (heap w3 parent) = Some t)
      by (unfold w3, before_parent_save; simpl; rewrite update_row_same; reflexivity).
    assert (Hopen3 : pending (db w3) !! t
                     = Some (writes ++ [image (keyed (heap w1 related) (next_key (db w1)))])%list)
      by (simpl; rewrite Hp2; apply lookup_insert_eq).
    destruct (save_cases parent w3)
      as [(rest & _ & ->) | [(w4 & t' & -> & Ht' & Hnone & _) | (w4 & -> & Hheap4 & _ & Hdb4)]].
    + simpl. split; [exact Hc2|]. eauto.
    + rewrite Htrx3 in Ht'. injection Ht' as <-. congruence.
    + rewrite Htrx3 in Hdb4. destruct Hdb4 as (Hc4 & writes4 & Hw4 & Hp4).
      rewrite Hopen3 in Hw4. injection Hw4 as <-.
      simpl. split; [rewrite Hc4; exact Hc2|].
      exists (image (keyed (heap w1 related) (next_key (db w1)))).
      rewrite Hp4. simpl. rewrite Hp2, insert_insert_eq, <- app_assoc. simpl.
      rewrite Hheap4, !update_row_same.
      unfold w3, before_parent_save. simpl. rewrite !update_row_same. reflexivity.
Qed.

(** A [save] whose persist operation is planned to fail throws. *)
Lemma save_planned_failure (r : Ref) (w : World) (rest : list bool) :
  faults w = true :: rest -> snd (save r w) = Thrown "persist failed".
Proof.
  intros Hfaults. unfold save, next_fault, mbind, M_bind, bind, throw.
  rewrite Hfaults. reflexivity.
Qed.

(** The same with every write named: the related record's image, then
    the parent's. *)
Lemma associate_steps_store_exact relation parent related t writes w :
  pending (db w) !! t = Some writes ->
  let result := associate_steps relation parent related t w in
  match snd result with
  | Returned _ =>
      pending (db (fst result)) =
      <[t := (writes ++ [related_image related t w; image (heap (fst result) parent)])%list]>
        (pending (db w))
  | Thrown _ =>
      pending (db (fst result)) =
      <[t := (writes ++ written_before_failure related t w)%list]> (pending (db w))
  end.
Proof.
  intros Hopen result. unfold result. rewrite associate_steps_unfold.
  set (w1 := before_related_save related t w).
  assert (Hrow1 : heap w1 related = set_trx (Some t) (heap w related))
    by (unfold w1, before_related_save; cbn [heap]; apply update_row_same).
  assert (Htrx1 : trx (heap w1 related) = Some t) by (rewrite Hrow1; reflexivity).
  assert (Himage : image (keyed (heap w1 related) (next_key (db w1)))
                   = related_image related t w)
    by (rewrite Hrow1; reflexivity).
  destruct (save_cases related w1)
    as [(rest & Hfault & ->) | [(w2 & t' & -> & Ht' & Hnone & _) | (w2 & Hsave & Hheap2 & Hfaults2 & Hdb2)]].
  - cbn [fst snd db]. unfold written_before_failure.
    change (faults w1) with (faults w) in Hfault. rewrite Hfault, app_nil_r.
    symmetry. apply insert_id. exact Hopen.
  - rewrite Htrx1 in Ht'. injection Ht' as <-. simpl in Hnone. congruence.
  - assert (Hfirst : written_before_failure related t w = [related_image related t w]).
    { unfold written_before_failure.
      destruct (faults w) as [|[] rest] eqn:Hfaults; try reflexivity.
      pose proof (save_planned_failure related w1 rest Hfaults) as Hthrown.
      rewrite Hsave in Hthrown. discriminate. }
    rewrite Hsave.
    rewrite Htrx1, Himage in Hdb2. destruct Hdb2 as (Hc2 & writes2 & Hw2 & Hp2).
    simpl in Hw2, Hc2, Hp2. rewrite Hopen in Hw2. injection Hw2 as <-.
    set (w3 := before_parent_save relation parent related t w2).
    assert (Htrx3 : trx (heap w3 parent) = Some t)
      by (unfold w3, before_parent_save; simpl; rewrite update_row_same; reflexivity).
    assert (Hopen3 : pending (db w3) !! t
                     = Some (writes ++ [related_image related t w])%list)
      by (simpl; rewrite Hp2; apply lookup_insert_eq).
    destruct (save_cases parent w3)
      as [(rest & _ & ->) | [(w4 & t' & -> & Ht' & Hnone & _) | (w4 & -> & Hheap4 & _ & Hdb4)]].
    + cbn [fst snd db]. rewrite Hfirst. exact Hp2.
    + rewrite Htrx3 in Ht'. injection Ht' as <-. congruence.
    + rewrite Htrx3 in Hdb4. destruct Hdb4 as (Hc4 & writes4 & Hw4 & Hp4).
      rewrite Hopen3 in Hw4. injection Hw4 as <-.
      cbn [fst snd].
      rewrite Hp4. simpl. rewrite Hp2, insert_insert_eq, <- app_assoc. simpl.
      rewrite Hheap4, !update_row_same.
      unfold w3, before_parent_save. simpl. rewrite !update_row_same. reflexivity.
Qed.

(** *** The records after the steps have returned *)

Lemma keyed_id (row : LucidRow) (key : Z) :
  is_Some (attributes row !! primaryKey row) -> keyed row key = row.
Proof. intros [v Hv]. unfold keyed. rewrite Hv. reflexivity. Qed.

Lemma attribute_keyed (row : LucidRow) (key : Z) (name : string) :
  is_Some (attributes row !! name) ->
  attribute (keyed row key) name = attribute row name.
Proof. intros Hsome. unfold attribute. rewrite keyed_keeps by exact Hsome. reflexivity. Qed.

Lemma attribute_set_same (row : LucidRow) (name : string) (v : JSValue) :
  attribute (set_attribute name v row) name = v.
Proof. unfold attribute. simpl. rewrite lookup_insert_eq. reflexivity. Qed.

Lemma attribute_set_other (row : LucidRow) (name name' : string) (v : JSValue) :
  name <> name' -> attribute (set_attribute name v row) name' = attribute row name'.
Proof. intros Hne. unfold attribute. simpl. rewrite lookup_insert_ne by exact Hne. reflexivity. Qed.

Lemma associate_steps_links relation parent related t w :
  let result := associate_steps relation parent related t w in
  snd result = Returned tt ->
  let h := heap (fst result) in
  attribute (h parent) (foreignKey relation)
  = attribute (h related) (primaryKey (h related))
  /\ is_Some (attributes (h related) !! primaryKey (h related))
  /\ trx (h parent) = Some t
  /\ trx (h related) = Some t.
Proof.
  intros result. unfold result. rewrite associate_steps_unfold.
  set (w1 := before_related_save related t w).
  destruct (save_cases related w1)
    as [(rest & _ & ->) | [(w2 & t' & -> & _) | (w2 & -> & Hheap2 & _ & _)]];
    [discriminate | discriminate |].
  set (saved := set_persisted (keyed (heap w1 related) (next_key (db w1)))) in Hheap2.
  assert (Hsaved : is_Some (attributes saved !! primaryKey saved)
                   /\ trx saved = Some t).
  { destruct (keyed_fields (heap w1 related) (next_key (db w1))) as (_ & Hpk & Htrx & Hkey).
    unfold saved, set_persisted. cbn [attributes primaryKey trx].
    rewrite Hpk, Htrx. split; [exact Hkey|].
    unfold w1, before_related_save. cbn [heap]. rewrite update_row_same. reflexivity. }
  destruct Hsaved as [Hkey Htrx].
  assert (Hrelated2 : heap w2 related = saved)
    by (rewrite Hheap2; apply update_row_same).
  set (w3 := before_parent_save relation parent related t w2).
  set (hydrated := set_trx (Some t)
                     (set_attribute (foreignKey relation)
                        (attribute saved (primaryKey saved)) (heap w2 parent))).
  assert (Hparent3 : heap w3 parent = hydrated).
  { unfold w3, before_parent_save, hydrated. cbn [heap].
    rewrite !update_row_same, Hrelated2. reflexivity. }
  assert (Hfk : is_Some (attributes hydrated !! foreignKey relation))
    by (unfold hydrated; simpl; rewrite lookup_insert_eq; eauto).
  destruct (save_cases parent w3)
    as [(rest & _ & ->) | [(w4 & t' & -> & _) | (w4 & -> & Hheap4 & _ & _)]];
    [discriminate | discriminate |].
  intros _. cbn [fst]. rewrite Hheap4, Hparent3, update_row_same.
  destruct (decide (related = parent)) as [->|Hne].
  - (* one object is both the parent and the related record *)
    rewrite update_row_same.
    assert (Hkey' : is_Some (attributes hydrated !! primaryKey hydrated)).
    { unfold hydrated. simpl. rewrite Hrelated2.
      destruct (decide (foreignKey relation = primaryKey saved)) as [->|Hdiff].
      - rewrite lookup_insert_eq. eauto.
      - rewrite lookup_insert_ne by exact Hdiff. exact Hkey. }
    rewrite keyed_id by exact Hkey'.
    split; [|split; [exact Hkey' | split; reflexivity]].
    unfold hydrated. simpl. rewrite Hrelated2.
    change (attribute (set_attribute (foreignKey relation)
                         (attribute saved (primaryKey saved)) saved) (foreignKey relation)
            = attribute (set_attribute (foreignKey relation)
                           (attribute saved (primaryKey saved)) saved) (primaryKey saved)).
    rewrite attribute_set_same.
    destruct (decide (foreignKey relation = primaryKey saved)) as [->|Hdiff].
    + rewrite attribute_set_same. reflexivity.
    + rewrite attribute_set_other by exact Hdiff. reflexivity.
  - rewrite update_row_other by exact Hne.
    assert (Hrelated3 : heap w3 related = saved).
    { unfold w3, before_parent_save. cbn [heap].
      rewrite !update_row_other by exact Hne. exact Hrelated2. }
    rewrite Hrelated3.
    split; [|split; [exact Hkey | split; [|exact Htrx]]].
    + change (attribute (keyed hydrated (next_key (db w3))) (foreignKey relation)
              = attribute saved (primaryKey saved)).
      rewrite attribute_keyed by exact Hfk.
      unfold hydrated.
      change (attribute (set_attribute (foreignKey relation)
                           (attribute saved (primaryKey saved)) (heap w2 parent))
                (foreignKey relation) = attribute saved (primaryKey saved)).
      apply attribute_set_same.
    + destruct (keyed_fields hydrated (next_key (db w3))) as (_ & _ & Htrx' & _).
      change (trx (keyed hydrated (next_key (db w3))) = Some t).
      rewrite Htrx'. reflexivity.
Qed.

(** *** A transaction that is no longer open *)

Lemma associate_steps_closed relation parent related t w :
  pending (db w) !! t = None ->
  let result := associate_steps relation parent related t w in
  committed (db (fst result)) = committed (db w)
  /\ pending (db (fst result)) = pending (db w)
  /\ exists e, snd result = Thrown e.
Proof.
  intros Hclosed result. unfold result. rewrite associate_steps_unfold.
  set (w1 := before_related_save related t w).
  assert (Htrx1 : trx (heap w1 related) = Some t)
    by (unfold w1, before_related_save; cbn [heap]; rewrite update_row_same; reflexivity).
  destruct (save_cases related w1)
    as [(rest & _ & ->) | [(w2 & t' & -> & _ & _ & _ & Hc & Hp) | (w2 & _ & _ & _ & Hdb2)]].
  - simpl. eauto.
  - cbn [fst snd]. rewrite Hc, Hp. simpl. eauto.
  - rewrite Htrx1 in Hdb2. destruct Hdb2 as (_ & writes & Hopen & _).
    simpl in Hopen. congruence.
Qed.

(** *** [managedTransaction] on a client that is not a transaction *)

Lemma managedTransaction_plain {A} (callback : TrxId -> M A) (w : World) :
  managedTransaction PlainClient callback w =
  let t := fresh (dom (pending (db w))) in
  match callback t (opened w) with
  | (w1, Returned a) =>
      match commit t w1 with
      | (w2, Returned _) => (w2, Returned a)
      | (w2, Thrown e) => (w2, Thrown e)
      end
  | (w1, Thrown e) =>
      (mkWorld (heap w1)
         (mkDb (committed (db w1)) (delete t (pending (db w1))) (next_key (db w1)))
         (faults w1), Thrown e)
  end.
Proof.
  unfold managedTransaction, transaction, on_error, rollback, get_db, put_db,
    mbind, M_bind, mret, M_ret, bind, ret. cbn -[commit].
  fold (opened w).
  destruct (callback _ (opened w)) as [w1 [a|e]]; cbn -[commit]; [|reflexivity].
  destruct (commit _ w1) as [w2 [[]|e]]; reflexivity.
Qed.

Lemma commit_open (t : TrxId) (writes : list Write) (w : World) :
  pending (db w) !! t = Some writes ->
  commit t w =
  (mkWorld (heap w)
     (mkDb (committed (db w) ++ writes) (delete t (pending (db w))) (next_key (db w)))
     (faults w), Returned tt).
Proof.
  intros Hopen. unfold commit, get_db, put_db, mbind, M_bind, bind. simpl.
  rewrite Hopen. reflexivity.
Qed.

(** The transaction that [managedTransaction] opens is a new one. *)
Lemma fresh_transaction_closed (w : World) :
  pending (db w) !! fresh (dom (pending (db w))) = None.
Proof. apply not_elem_of_dom, is_fresh. Qed.

Lemma delete_fresh_insert (w : World) (writes writes' : list Write) :
  delete (fresh (dom (pending (db w))))
    (<[fresh (dom (pending (db w))) := writes]>
       (<[fresh (dom (pending (db w))) := writes']> (pending (db w))))
  = pending (db w).
Proof.
  rewrite insert_insert_eq, delete_insert_eq.
  apply delete_id, fresh_transaction_closed.
Qed.

(** C3, as the code has it. [associate] runs both persists through one
    transaction. When it returns, the parent's foreign key is the related
    record's primary-key value. When [associate] opens the transaction
    itself (the parent carries none and the client is not one), the store
    ends either with the related record's image and the parent's
    committed together, or, when a persist fails, exactly as it was: the
    transaction is rolled back and the parent's stored foreign key is not
    changed. When the transaction comes from the caller, [associate]
    neither commits nor rolls it back: after a success the two images are
    pending in it behind the writes it held; after a failure those writes
    are still pending, followed by the related record's image when it was
    the parent's save that failed. *)
Theorem associate_all_or_nothing relation parent client related w :
  let result := associate relation parent client related w in
  let w' := fst result in
  (snd result = Returned tt ->
   attribute (heap w' parent) (foreignKey relation)
   = attribute (heap w' related) (primaryKey (heap w' related))
   /\ is_Some (attributes (heap w' related) !! primaryKey (heap w' related)))
  /\ (trx (heap w parent) = None -> client = PlainClient ->
      pending (db w') = pending (db w)
      /\ match snd result with
         | Returned _ =>
             committed (db w') =
             (committed (db w)
              ++ [related_image related (fresh (dom (pending (db w)))) w;
                  image (heap w' parent)])%list
         | Thrown _ => committed (db w') = committed (db w)
         end)
  /\ (forall t, parent_trx_or_client (heap w parent) client = TrxClient t ->
      committed (db w') = committed (db w)
      /\ dom (pending (db w')) = dom (pending (db w))
      /\ forall writes,
           pending (db w) !! t = Some writes ->
           match snd result with
           | Returned _ =>
               pending (db w') =
               <[t := (writes ++ [related_image related t w;
                                  image (heap w' parent)])%list]>
                 (pending (db w))
           | Thrown _ =>
               pending (db w') =
               <[t := (writes ++ written_before_failure related t w)%list]>
                 (pending (db w))
           end).
Proof.
  intros result w'. unfold w', result. rewrite associate_unfold.
  split; [|split].
  - (* the association *)
    destruct (parent_trx_or_client (heap w parent) client) as [|t].
    + rewrite managedTransaction_plain. cbv zeta.
      set (t := fresh (dom (pending (db w)))).
      pose proof (associate_steps_links relation parent related t (opened w)) as Hlinks.
      pose proof (associate_steps_store relation parent related t [] (opened w)
                    (lookup_insert_eq _ _ _)) as (_ & Hstore).
      destruct (associate_steps relation parent related t (opened w)) as [w1 [[]|e]];
        [|discriminate].
      cbn [fst snd] in Hlinks, Hstore. destruct Hstore as (written & Hpending).
      rewrite (commit_open t _ w1 ltac:(rewrite Hpending; apply lookup_insert_eq)).
      intros _. cbn [fst heap].
      destruct (Hlinks eq_refl) as (Hfk & Hkey & _). eauto.
    + simpl.
      pose proof (associate_steps_links relation parent related t w) as Hlinks.
      intros Hret. destruct (Hlinks Hret) as (Hfk & Hkey & _). eauto.
  - (* a transaction of its own *)
    intros Hnone ->. unfold parent_trx_or_client. rewrite Hnone.
    rewrite managedTransaction_plain. cbv zeta.
    set (t := fresh (dom (pending (db w)))).
    pose proof (associate_steps_store relation parent related t [] (opened w)
                  (lookup_insert_eq _ _ _)) as (Hcommitted & _).
    pose proof (associate_steps_store_exact relation parent related t [] (opened w)
                  (lookup_insert_eq _ _ _)) as Hstore.
    cbv zeta in Hstore.
    change (related_image related t (opened w)) with (related_image related t w)
      in Hstore.
    destruct (associate_steps relation parent related t (opened w)) as [w1 [[]|e]];
      cbn [fst snd] in Hcommitted, Hstore.
    + rewrite (commit_open t _ w1 ltac:(rewrite Hstore; apply lookup_insert_eq)).
      cbn [fst snd db pending committed heap]. split.
      * rewrite Hstore. apply delete_fresh_insert.
      * rewrite Hcommitted. reflexivity.
    + cbn [fst snd db pending committed]. split; [|exact Hcommitted].
      rewrite Hstore. apply delete_fresh_insert.
  - (* the caller's transaction *)
    intros t ->. simpl.
    destruct (pending (db w) !! t) as [writes|] eqn:Hopen.
    + pose proof (associate_steps_store relation parent related t writes w Hopen)
        as (Hcommitted & _).
      pose proof (associate_steps_store_exact relation parent related t writes w Hopen)
        as Hstore.
      cbv zeta in Hstore.
      split; [exact Hcommitted|]. split.
      * revert Hstore.
        destruct (snd (associate_steps relation parent related t w));
          intros ->; apply dom_insert_lookup_L; eauto.
      * intros writes0 [= <-]. exact Hstore.
    + pose proof (associate_steps_closed relation parent related t w Hopen)
        as (Hcommitted & Hpending & _).
      rewrite Hpending. split; [exact Hcommitted|]. split; [reflexivity|].
      intros writes0 [=].
Qed.

(** C3 at the scenario of the specification with a failure forced between
    the two saves, the transaction being [associate]'s own. *)
Lemma associate_all_or_nothing_witness :
  let w := mkWorld (profile_and_user saved_profile) profiles_only [false; true] in
  let result := associate profile_user 0%nat PlainClient 1%nat w in
  pending (db (fst result)) = pending (db w)
  /\ match snd result with
     | Returned _ =>
         committed (db (fst result)) =
         (committed (db w)
          ++ [related_image 1%nat (fresh (dom (pending (db w)))) w;
              image (heap (fst result) 0%nat)])%list
     | Thrown _ => committed (db (fst result)) = committed (db w)
     end.
Proof.
  intros w.
  exact (proj1 (proj2 (associate_all_or_nothing profile_user 0%nat PlainClient 1%nat w))
           eq_refl eq_refl).
Defined.

(** The scenario of the specification: an unsaved user, a saved profile,
    no failure. Both rows are committed together and the profile's
    [user_id] is the key the user got. *)
Lemma associate_scenario_success :
  let w := mkWorld (profile_and_user saved_profile) profiles_only [] in
  let result := associate profile_user 0%nat PlainClient 1%nat w in
  snd result = Returned tt
  /\ attribute (heap (fst result) 0%nat) "user_id" = VNum 1
  /\ attribute (heap (fst result) 1%nat) "id" = VNum 1
  /\ committed (db (fst result)) =
     [ image saved_profile;
       mkWrite "users" {[ "username" := VStr "virk"; "id" := VNum 1 ]};
       mkWrite "profiles" {[ "id" := VNum 7; "user_id" := VNum 1 ]} ]
  /\ pending (db (fst result)) = ∅.
Proof. vm_compute. repeat split. Qed.

(** The same with a failure forced between the two saves: the store is
    as before. The profile object in memory already carries the key that
    was hydrated into it. *)
Lemma associate_scenario_failure :
  let w := mkWorld (profile_and_user saved_profile) profiles_only [false; true] in
  let result := associate profile_user 0%nat PlainClient 1%nat w in
  snd result = Thrown "persist failed"
  /\ committed (db (fst result)) = [image saved_profile]
  /\ pending (db (fst result)) = ∅
  /\ attribute (heap (fst result) 0%nat) "user_id" = VNum 1.
Proof. vm_compute. repeat split. Qed.

(** C3 fails as stated when the parent brings its own transaction: the
    parent's save fails, nothing is rolled back, and the related record's
    write is still pending in the caller's transaction; the parent object
    carries the hydrated key. *)
Lemma associate_in_callers_transaction_not_rolled_back :
  let profile := set_trx (Some 5%nat) saved_profile in
  let w := mkWorld (profile_and_user profile) profiles_in_transaction [false; true] in
  let result := associate profile_user 0%nat PlainClient 1%nat w in
  snd result = Thrown "persist failed"
  /\ pending (db w) !! 5%nat = Some []
  /\ pending (db (fst result)) !! 5%nat =
     Some [mkWrite "users" {[ "username" := VStr "virk"; "id" := VNum 1 ]}]
  /\ pending (db (fst result)) <> pending (db w)
  /\ attribute (heap w 0%nat) "user_id" = VUndefined
  /\ attribute (heap (fst result) 0%nat) "user_id" = VNum 1.
Proof.
  vm_compute. repeat split. discriminate.
Qed.

End BelongsToSpec.

(* ===================================================================== *)
(** * Further properties of SimplePaginator *)
(* ===================================================================== *)

Module PaginatorMore.
Import Paginator.

Section Links.
Context {Row : Type}.
Implicit Types p : SimplePaginator Row.

Lemma urls_from_length p (start : Z) (n : nat) :
  length (urls_from p start n) = n.
Proof.
  revert start. induction n as [|n IH]; intros start; simpl; [reflexivity|].
  rewrite IH. reflexivity.
Qed.

Lemma urls_from_elem p (start : Z) (n : nat) (l : PageLink) :
  l ∈ urls_from p start n <->
  start <= link_page l < start + Z.of_nat n
  /\ l = mkPageLink (getUrl p (link_page l)) (link_page l)
           (link_page l =? currentPage p).
Proof.
  revert start. induction n as [|n IH]; intros start; simpl.
  - split; [intros Hin; inversion Hin | intros [Hrange _]; lia].
  - rewrite elem_of_cons, IH. split.
    + intros [->|[Hrange Hl]]; simpl; [split; [lia | reflexivity]|].
      split; [lia | exact Hl].
    + intros [Hrange Hl].
      destruct (Z.eq_dec (link_page l) start) as [E|Hne].
      * left. rewrite Hl, E. reflexivity.
      * right. split; [lia | exact Hl].
Qed.

(** X1. [getUrlsForRange(start, end)] has one entry for every page number
    from [start] to [end], and nothing else: [end - start + 1] entries
    (none when [end < start]), each with the URL of its page and marked
    active exactly when its page is the current one. *)
Theorem getUrlsForRange_entries p (start end_ : Z) :
  length (getUrlsForRange p start end_) = Z.to_nat (end_ - start + 1)
  /\ forall l : PageLink,
       l ∈ getUrlsForRange p start end_ <->
       start <= link_page l <= end_
       /\ l = mkPageLink (getUrl p (link_page l)) (link_page l)
                (link_page l =? currentPage p).
Proof.
  unfold getUrlsForRange. split; [apply urls_from_length|].
  intros l. rewrite urls_from_elem. split; intros [Hrange Hl]; (split; [lia | exact Hl]).
Qed.

(** The number of entries marked active. *)
Lemma urls_from_active p (start : Z) (n : nat) :
  length (filter (fun l => isActive l = true) (urls_from p start n)) =
  if decide (start <= currentPage p < start + Z.of_nat n) then 1%nat else 0%nat.
Proof.
  revert start. induction n as [|n IH]; intros start.
  - simpl. rewrite decide_False by lia. reflexivity.
  - cbn [urls_from]. rewrite filter_cons. cbn [isActive].
    destruct (Z.eqb_spec start (currentPage p)) as [E|Hne].
    + rewrite decide_True by reflexivity. cbn [length]. rewrite IH.
      rewrite decide_False by lia. rewrite decide_True by lia. reflexivity.
    + rewrite decide_False by discriminate. rewrite IH.
      destruct (decide (start + 1 <= currentPage p < start + 1 + Z.of_nat n));
        [rewrite decide_True by lia | rewrite decide_False by lia]; reflexivity.
Qed.

(** X2. Among the entries of [getUrlsForRange(start, end)] exactly one is
    marked active when the current page lies in the range, and none
    otherwise. *)
Theorem getUrlsForRange_one_active p (start end_ : Z) :
  length (filter (fun l => isActive l = true) (getUrlsForRange p start end_)) =
  if decide (start <= currentPage p <= end_) then 1%nat else 0%nat.
Proof.
  unfold getUrlsForRange. rewrite urls_from_active.
  destruct (decide (start <= currentPage p <= end_));
    [rewrite decide_True by lia | rewrite decide_False by lia]; reflexivity.
Qed.

(** Every paginator that the constructor builds has a last page of at
    least 1, whatever the numbers it is given. *)
Lemma lastPage_at_least_1 (n size page : Z) (rows : list Row) :
  1 <= lastPage (new_SimplePaginator n size page rows).
Proof. simpl. lia. Qed.

(** X3. For a paginator built with [total >= 0], [perPage >= 1] and
    [currentPage >= 1]: there are more pages exactly when the pages up to
    the current one do not hold all records
    ([currentPage * perPage < total]), there are pages at all exactly
    when one page does not hold them ([perPage < total]), and
    [getNextPageUrl()] is [null] exactly in the first case's
    complement. *)
Theorem navigation_of_constructed (n size page : Z) (rows : list Row) :
  0 <= n -> 1 <= size -> 1 <= page ->
  let p := new_SimplePaginator n size page rows in
  hasMorePages p = (page * size <? n)
  /\ hasPages p = (size <? n)
  /\ (getNextPageUrl p = None <-> n <= page * size).
Proof.
  intros Hn Hsize Hpage p.
  pose proof (PaginatorSpec.Math_ceil_div_bounds n size ltac:(lia)) as Hc.
  assert (Hmore : hasMorePages p = (page * size <? n)).
  { unfold p. simpl.
    destruct (Z.ltb_spec page (Z.max (Math_ceil_div n size) 1));
      destruct (Z.ltb_spec (page * size) n); try reflexivity; nia. }
  split; [exact Hmore|]. split.
  - unfold p. simpl.
    destruct (Z.eqb_spec (Z.max (Math_ceil_div n size) 1) 1);
      destruct (Z.ltb_spec size n); try reflexivity; nia.
  - unfold getNextPageUrl. rewrite Hmore.
    destruct (Z.ltb_spec (page * size) n); split; intros; try lia; try discriminate.
    reflexivity.
Qed.

End Links.

(** X3 at 95 records in pages of 20, on page 5. *)
Lemma navigation_of_constructed_witness :
  let p := new_SimplePaginator 95 20 5 (@nil nat) in
  hasMorePages p = (5 * 20 <? 95)
  /\ hasPages p = (20 <? 95)
  /\ (getNextPageUrl p = None <-> 95 <= 5 * 20).
Proof.
  exact (navigation_of_constructed 95 20 5 (@nil nat) ltac:(lia) ltac:(lia) ltac:(lia)).
Defined.

(** Properties defined one after the other under different names: each
    name reads its own value, every other name what it read before. *)
Lemma fold_insert_lookup (entries : list (string * MetaValue))
    (o : gmap string MetaValue) (k : string) :
  NoDup (map fst entries) ->
  fold_left (fun o e => <[fst e := snd e]> o) entries o !! k =
  match (list_to_map entries : gmap string MetaValue) !! k with
  | Some v => Some v
  | None => o !! k
  end.
Proof.
  revert o. induction entries as [|[k0 v0] entries IH]; intros o Hdistinct.
  - reflexivity.
  - cbn [fold_left fst snd]. cbn [map fst] in Hdistinct.
    apply NoDup_cons in Hdistinct as [Hfresh Hdistinct].
    rewrite IH by exact Hdistinct.
    change (list_to_map ((k0, v0) :: entries) : gmap string MetaValue)
      with (<[k0 := v0]> (list_to_map entries : gmap string MetaValue)).
    destruct (decide (k = k0)) as [->|Hne].
    + rewrite !lookup_insert_eq.
      rewrite (not_elem_of_list_to_map_1 (M := gmap string) entries k0) by exact Hfresh.
      reflexivity.
    + rewrite !lookup_insert_ne by congruence. reflexivity.
Qed.

(** Writing one name leaves what is read under every other name. *)
Lemma lookup_written_assign_other (o : Qs.QsObject) (k k' : string) (v : Qs.QsValue) :
  k <> k' ->
  Qs.lookup_param k' (Qs.written (Qs.assign o k v)) = Qs.lookup_param k' (Qs.written o).
Proof.
  intros Hne. induction o as [|[k0 v0] o IH]; simpl.
  - destruct (Qs.render v); simpl; [|reflexivity].
    destruct (String.eqb_spec k k'); [contradiction | reflexivity].
  - destruct (String.eqb_spec k0 k) as [->|Hk]; simpl.
    + destruct (Qs.render v), (Qs.render v0); simpl;
        destruct (String.eqb_spec k k'); try contradiction; reflexivity.
    + destruct (Qs.render v0); simpl; [|exact IH].
      destruct (String.eqb k0 k'); [reflexivity | exact IH].
Qed.

Section Meta.
Context {Row : Type}.
Implicit Types p : SimplePaginator Row.

(** X4. When the nine meta keys are different names, the object of
    [getMeta()] has exactly the nine properties of the literal, each with
    the value written for it, and on a paginator whose [lastPage] is at
    least 1 (every paginator the constructor builds) its links agree with
    its numbers: the first-page URL carries page 1 and the last-page URL
    carries [lastPage] itself. *)
Theorem getMeta_links_agree (metaKeys : SimplePaginatorMetaKeys) p :
  NoDup (map fst (getMeta_entries metaKeys p)) ->
  1 <= lastPage p ->
  (forall k v, getMeta metaKeys p !! k = Some v <-> (k, v) ∈ getMeta_entries metaKeys p)
  /\ getMeta metaKeys p !! key_lastPage metaKeys = Some (MetaNum (lastPage p))
  /\ exists first last : string,
       getMeta metaKeys p !! key_firstPageUrl metaKeys
       = Some (MetaStr (url p ++ "?" ++ first))
       /\ Qs.page_param first = Some 1
       /\ getMeta metaKeys p !! key_lastPageUrl metaKeys
          = Some (MetaStr (url p ++ "?" ++ last))
       /\ Qs.page_param last = Some (lastPage p).
Proof.
  intros Hdistinct Hlast.
  assert (Hget : forall k v, getMeta metaKeys p !! k = Some v
                             <-> (k, v) ∈ getMeta_entries metaKeys p).
  { intros k v. unfold getMeta. rewrite fold_insert_lookup by exact Hdistinct.
    rewrite lookup_empty.
    rewrite (elem_of_list_to_map (M := gmap string) _ k v) by exact Hdistinct.
    destruct (list_to_map _ !! k); split; congruence. }
  split; [exact Hget|].
  split.
  - apply Hget. unfold getMeta_entries.
    repeat first [apply list_elem_of_here | apply list_elem_of_further].
  - exists (Qs.stringify (getUrl_params p 1)),
           (Qs.stringify (getUrl_params p (lastPage p))).
    split; [apply Hget; unfold getMeta_entries;
            repeat first [apply list_elem_of_here | apply list_elem_of_further]|].
    split; [unfold getUrl_params; apply QsFacts.page_param_stringify_assign|].
    split; [apply Hget; unfold getMeta_entries;
            repeat first [apply list_elem_of_here | apply list_elem_of_further]|].
    unfold getUrl_params. rewrite QsFacts.page_param_stringify_assign.
    destruct (Z.ltb_spec (lastPage p) 1); [lia | reflexivity].
Qed.

(** X5. The parameters given to [queryString] come back unchanged from
    every URL: reading the query string of [getUrl(page)] gives, for
    every name other than [page], the text that was written for that
    name in the stored parameters. *)
Theorem getUrl_keeps_parameters p (page : Z) (name : string) :
  name <> "page" ->
  Qs.lookup_param name (Qs.parse (Qs.stringify (getUrl_params p page)))
  = Qs.lookup_param name (Qs.written (qs p)).
Proof.
  intros Hname. rewrite QsFacts.parse_stringify. unfold getUrl_params.
  apply lookup_written_assign_other. congruence.
Qed.

End Meta.

(** Without more pages the two neighbouring links of the meta object are
    [null]. *)
Lemma getMeta_example :
  let meta := getMeta snake_case_keys (new_SimplePaginator 0 20 1 (@nil nat)) in
  meta !! "total" = Some (MetaNum 0)
  /\ meta !! "last_page" = Some (MetaNum 1)
  /\ meta !! "first_page_url" = Some (MetaStr "/?page=1")
  /\ meta !! "next_page_url" = Some MetaNull
  /\ meta !! "previous_page_url" = Some MetaNull
  /\ meta !! "page" = None
  /\ size meta = 9%nat.
Proof. vm_compute. repeat split. Qed.

(** X4 on an empty result with the snake-case keys. *)
Lemma getMeta_links_agree_witness :
  let p := new_SimplePaginator 0 20 1 (@nil nat) in
  (forall k v, getMeta snake_case_keys p !! k = Some v
               <-> (k, v) ∈ getMeta_entries snake_case_keys p)
  /\ getMeta snake_case_keys p !! "last_page" = Some (MetaNum (lastPage p))
  /\ exists first last : string,
       getMeta snake_case_keys p !! "first_page_url"
       = Some (MetaStr (url p ++ "?" ++ first))
       /\ Qs.page_param first = Some 1
       /\ getMeta snake_case_keys p !! "last_page_url"
          = Some (MetaStr (url p ++ "?" ++ last))
       /\ Qs.page_param last = Some (lastPage p).
Proof.
  intros p.
  refine (getMeta_links_agree snake_case_keys p _ _).
  - apply (bool_decide_unpack _). vm_compute. reflexivity.
  - unfold p. simpl. lia.
Defined.

(** X5 with a search term among the parameters. *)
Lemma getUrl_keeps_parameters_witness :
  let p := queryString [("q", Qs.QsStr "a b"); ("page", Qs.QsStr "9")]
             (new_SimplePaginator 95 20 1 (@nil nat)) in
  Qs.lookup_param "q" (Qs.parse (Qs.stringify (getUrl_params p 3)))
  = Qs.lookup_param "q" (Qs.written (qs p)).
Proof.
  intros p. apply (getUrl_keeps_parameters p 3 "q"). discriminate.
Defined.

End PaginatorMore.

(* ===================================================================== *)
(** * Further properties of the pivot helpers and of the builder *)
(* ===================================================================== *)

Module ManyToManyMore.
Import ManyToMany.

Section Helper.
Context {Q : Type} `{PivotQuery Q}.

(** X7. [prefixPivotTable] returns a bare name only for a bare name on a
    pivot-only [ManyToManyQueryBuilder]; in every other case the result
    is qualified. Prefixing twice is prefixing once. *)
Theorem prefixPivotTable_bare_iff (query : Q) (column : string) :
  (includes_dot (PivotHelpers.prefixPivotTable query column) = false <->
   includes_dot column = false
   /\ query_isSubQueryBuilder = false
   /\ query_isPivotOnlyQuery query = true)
  /\ PivotHelpers.prefixPivotTable query (PivotHelpers.prefixPivotTable query column)
     = PivotHelpers.prefixPivotTable query column.
Proof.
  unfold PivotHelpers.prefixPivotTable.
  destruct (includes_dot column) eqn:Hcolumn.
  - rewrite Hcolumn. split; [|reflexivity]. split; [congruence | intros [? _]; congruence].
  - destruct query_isSubQueryBuilder.
    + rewrite ManyToManySpec.includes_dot_qualified. split; [|reflexivity].
      split; [congruence | intros (_ & ? & _); congruence].
    + destruct (query_isPivotOnlyQuery query).
      * rewrite Hcolumn. split; [|reflexivity]. split; [tauto | reflexivity].
      * rewrite ManyToManySpec.includes_dot_qualified. split; [|reflexivity].
        split; [congruence | intros (_ & _ & ?); congruence].
Qed.

End Helper.

Section Builder.
Context `{Orm}.
Implicit Types b : ManyToManyQueryBuilder.

(** X6. [prefixRelatedTable] always returns a qualified name, and
    prefixing twice is prefixing once. *)
Theorem prefixRelatedTable_qualified b (column : string) :
  includes_dot (prefixRelatedTable b column) = true
  /\ prefixRelatedTable b (prefixRelatedTable b column) = prefixRelatedTable b column.
Proof.
  unfold prefixRelatedTable.
  destruct (includes_dot column) eqn:Hcolumn.
  - rewrite Hcolumn. split; reflexivity.
  - rewrite ManyToManySpec.includes_dot_qualified. split; reflexivity.
Qed.

(** What the helper's [whereInPivot] and [whereNullPivot] send when the
    query is this builder. *)
Lemma whereInPivot_calls variation key value b :
  calls (PivotHelpers.whereInPivot variation key value b) =
  (calls b ++
   [Call (PivotHelpers.whereIn_method variation)
      [ACol (prefixRelatedTable b (PivotHelpers.prefixPivotTable b key));
       AValues value]])%list.
Proof.
  unfold PivotHelpers.whereInPivot. simpl.
  destruct value; rewrite ManyToManySpec.dispatch_whereIn_related; reflexivity.
Qed.

Lemma whereNullPivot_calls variation key b :
  calls (PivotHelpers.whereNullPivot variation key b) =
  (calls b ++
   [Call (PivotHelpers.whereNull_method variation)
      [ACol (prefixRelatedTable b (PivotHelpers.prefixPivotTable b key))]])%list.
Proof.
  unfold PivotHelpers.whereNullPivot. simpl.
  rewrite ManyToManySpec.dispatch_whereNull_related. reflexivity.
Qed.

Lemma pivot_key_on_joined_builder b key :
  includes_dot key = false ->
  isPivotOnlyQuery b = false ->
  prefixRelatedTable b (PivotHelpers.prefixPivotTable b key)
  = pivotTable (relation b) ++ "." ++ key.
Proof.
  intros Hbare Hjoined. unfold PivotHelpers.prefixPivotTable. simpl.
  rewrite Hbare, Hjoined.
  apply ManyToManySpec.prefixRelatedTable_dotted, ManyToManySpec.includes_dot_qualified.
Qed.

(** X8. On a builder that joins the pivot table, the [whereInPivot] and
    [whereNullPivot] families send a bare key qualified with the pivot
    table, under the method name of their variation ([whereIn],
    [orWhereIn], [whereNotIn], [orWhereNotIn]; [whereNull],
    [orWhereNull], [whereNotNull], [orWhereNotNull]); the values go
    through unchanged. *)
Theorem pivot_in_and_null_qualify_pivot b variation key value :
  includes_dot key = false ->
  isPivotOnlyQuery b = false ->
  calls (PivotHelpers.whereInPivot variation key value b) =
    (calls b ++
     [Call (match variation with
            | And => "whereIn" | Or => "orWhereIn"
            | Not => "whereNotIn" | OrNot => "orWhereNotIn"
            end)
        [ACol (pivotTable (relation b) ++ "." ++ key); AValues value]])%list
  /\ calls (PivotHelpers.whereNullPivot variation key b) =
    (calls b ++
     [Call (match variation with
            | And => "whereNull" | Or => "orWhereNull"
            | Not => "whereNotNull" | OrNot => "orWhereNotNull"
            end)
        [ACol (pivotTable (relation b) ++ "." ++ key)]])%list.
Proof.
  intros Hbare Hjoined.
  rewrite whereInPivot_calls, whereNullPivot_calls.
  rewrite (pivot_key_on_joined_builder b key Hbare Hjoined).
  destruct variation; split; reflexivity.
Qed.

Lemma transformRelatedTableColumns_qualified b (columns : list string) :
  isPivotOnlyQuery b = false ->
  Forall (fun c => includes_dot c = true) (transformRelatedTableColumns b columns).
Proof.
  intros Hjoined. unfold transformRelatedTableColumns. rewrite Hjoined.
  apply Forall_fmap, Forall_true. intros column.
  unfold prefixRelatedTable. simpl.
  destruct (includes_dot (resolveKey column)) eqn:Hc; [exact Hc|].
  apply ManyToManySpec.includes_dot_qualified.
Qed.

(** X9. [select(columns)] marks the builder as cherry-picking and makes
    one selection on the underlying query, of as many columns as it was
    given: the columns as they are on a pivot-only builder, and every one
    of them qualified by a table otherwise. *)
Theorem select_qualifies_columns b (columns : list string) :
  cherryPickingKeys (select columns b) = true
  /\ exists sent : list string,
       calls (select columns b) = (calls b ++ [Call "knexQuery.select" [ACols sent]])%list
       /\ length sent = length columns
       /\ if isPivotOnlyQuery b then sent = columns
          else Forall (fun c => includes_dot c = true) sent.
Proof.
  split; [reflexivity|].
  exists (transformRelatedTableColumns (set_cherryPickingKeys true b) columns).
  split; [reflexivity|]. split.
  - unfold transformRelatedTableColumns.
    destruct (isPivotOnlyQuery _); [reflexivity | apply length_map].
  - destruct (isPivotOnlyQuery b) eqn:Hpivot.
    + unfold transformRelatedTableColumns.
      change (isPivotOnlyQuery (set_cherryPickingKeys true b)) with (isPivotOnlyQuery b).
      rewrite Hpivot. reflexivity.
    + apply transformRelatedTableColumns_qualified. exact Hpivot.
Qed.

(** *** What [applyConstraints] adds, by mode *)


Lemma frame_helper_wherePivot variation key operator value b :
  frame (PivotHelpers.wherePivot variation key operator value b) = frame b.
Proof.
  unfold PivotHelpers.wherePivot. simpl.
  repeat case_bool_decide; rewrite ManyToManySpec.dispatch_where_related; reflexivity.
Qed.

Lemma frame_helper_whereInPivot variation key value b :
  frame (PivotHelpers.whereInPivot variation key value b) = frame b.
Proof.
  unfold PivotHelpers.whereInPivot. simpl.
  destruct value; rewrite ManyToManySpec.dispatch_whereIn_related; reflexivity.
Qed.

Lemma frame_addWhereConstraints b : frame (addWhereConstraints b) = frame b.
Proof.
  unfold addWhereConstraints, whereInPivot, wherePivot.
  destruct (parent b).
  - rewrite frame_helper_wherePivot. reflexivity.
  - rewrite frame_helper_whereInPivot. reflexivity.
Qed.

(** The pivot predicate: after [wrapExisting], one [where] for a single
    parent and one [whereIn] for a list of parents. *)
Lemma addWhereConstraints_calls b :
  exists predicate : KnexCall,
    calls (addWhereConstraints b) =
      (calls b ++ [Call "wrapExisting" []; predicate])%list
    /\ call_method predicate =
       match parent b with ParentRow _ => "where" | ParentRows _ => "whereIn" end.
Proof.
  unfold addWhereConstraints. destruct (parent b) as [row|rows].
  - rewrite ManyToManySpec.wherePivot_calls. eexists. split.
    + unfold calls, wrapExisting. simpl. rewrite <- app_assoc. reflexivity.
    + reflexivity.
  - unfold whereInPivot. rewrite whereInPivot_calls. eexists. split.
    + unfold calls, wrapExisting. simpl. rewrite <- app_assoc. reflexivity.
    + reflexivity.
Qed.

Lemma frame_applyConstraints b : frame (applyConstraints b) = frame b.
Proof.
  unfold applyConstraints.
  destruct (appliedConstraints b); [reflexivity|].
  repeat match goal with
         | |- context [if ?c then _ else _] => destruct c
         end;
    rewrite frame_addWhereConstraints; reflexivity.
Qed.

(** X10. [applyConstraints] keeps everything of the builder but the calls
    made on the query and the flags [cherryPickingKeys] and
    [appliedConstraints]: it never changes the pivot-only, preload or
    aggregate flags, the debug configuration, the parent, the relation or
    the operation of the query, and it never removes a call already
    made. *)
Theorem applyConstraints_frame b :
  frame (applyConstraints b) = frame b
  /\ exists added : list KnexCall,
       calls (applyConstraints b) = (calls b ++ added)%list.
Proof.
  split; [apply frame_applyConstraints|].
  unfold applyConstraints.
  destruct (appliedConstraints b); [exists []; symmetry; apply app_nil_r|].
  repeat match goal with
         | |- context [if ?c then _ else _] => destruct c
         end;
    match goal with
    | |- context [addWhereConstraints ?inner] =>
        destruct (addWhereConstraints_calls inner) as (sent & Hcalls & _)
    end;
    rewrite Hcalls; unfold calls; simpl; rewrite <- ?app_assoc; eexists; reflexivity.
Qed.








(** X14. The builder that [clone()] returns has the parent, the relation
    and the flags of the original as [clone()] leaves it (pivot-only,
    cherry-picking, constraints applied, preload, aggregates) and its
    debug and reporter configuration; the calls made on its underlying
    query are those made on the original's, followed by [pojo] when the
    query is pivot-only. *)
Theorem clone_copies_state b :
  let original := fst (clone b) in
  let cloned := snd (clone b) in
  parent cloned = parent original
  /\ relation cloned = relation original
  /\ isPivotOnlyQuery cloned = isPivotOnlyQuery original
  /\ cherryPickingKeys cloned = cherryPickingKeys original
  /\ appliedConstraints cloned = appliedConstraints original
  /\ isRelatedPreloadQuery cloned = isRelatedPreloadQuery original
  /\ hasAggregates cloned = hasAggregates original
  /\ debugQueries cloned = debugQueries original
  /\ customReporterData cloned = customReporterData original
  /\ queryAction cloned = queryAction original
  /\ calls cloned =
     (calls original ++ if isPivotOnlyQuery original then [Call "pojo" []] else [])%list.
Proof.
  unfold clone. cbn [fst snd]. unfold set_isPivotOnlyQuery.
  cbn [pivotQuery set_pivotQuery applyQueryFlags set_hasAggregates new_ManyToManyQueryBuilder].
  unfold isPivotOnlyQuery.
  destruct (pivotQuery (applyConstraints b)); repeat split.
  unfold calls. simpl. rewrite app_nil_r. reflexivity.
Qed.

(** *** The row transformer *)

Lemma ResultRow_eq (row row' : ResultRow) :
  (forall key, extras row !! key = extras row' !! key) -> row = row'.
Proof.
  destruct row as [m], row' as [m']. simpl. intros Hsame.
  f_equal. apply map_eq. exact Hsame.
Qed.

Lemma row_transformer_idempotent (timestamps : list string) (row : ResultRow) :
  row_transformer timestamps (row_transformer timestamps row)
  = row_transformer timestamps row.
Proof.
  apply ResultRow_eq. intros key.
  rewrite !ManyToManySpec.row_transformer_lookup.
  destruct (decide (key ∈ timestamps)); [|reflexivity].
  destruct (extras row !! key); simpl; [|reflexivity].
  rewrite ManyToManySpec.normalized_idempotent. reflexivity.
Qed.

Lemma row_transformer_dom (timestamps : list string) (row : ResultRow) :
  dom (extras (row_transformer timestamps row)) = dom (extras row).
Proof.
  apply set_eq. intros key. rewrite !elem_of_dom.
  rewrite ManyToManySpec.row_transformer_lookup.
  destruct (decide (key ∈ timestamps)); [|reflexivity].
  rewrite fmap_is_Some. reflexivity.
Qed.

(** X15. [exec] returns as many rows as were fetched, each with the same
    keys in its extras as before (it neither adds nor removes one), and
    its result is settled: running the rows through [exec] again changes
    nothing. *)
Theorem exec_settles b (fetched : list ResultRow) :
  length (exec b fetched) = length fetched
  /\ Forall2 (fun row row' => dom (extras row') = dom (extras row))
       fetched (exec b fetched)
  /\ exec b (exec b fetched) = exec b fetched.
Proof.
  rewrite !ManyToManySpec.exec_is_map. split; [apply length_map|]. split.
  - apply Forall2_fmap_r, Forall_Forall2_diag, Forall_true.
    intros row. apply row_transformer_dom.
  - rewrite <- list_fmap_compose. apply list_fmap_ext.
    intros i row _. apply row_transformer_idempotent.
Qed.

(** A value that the row transformer leaves as it is. *)
Lemma normalized_id (v : JSValue) :
  normalized v = v <->
  match v with
  | VStr s => s = ""
  | VDate _ => False
  | _ => True
  end.
Proof.
  destruct v as [| | | | |s| |]; simpl; try tauto.
  - destruct (String.eqb_spec s ""); split; try tauto; try discriminate.
  - split; [discriminate | tauto].
Qed.

(** X16. A fetched row comes back from [exec] exactly as it was when,
    under every pivot timestamp alias, its extras hold nothing, an empty
    string, or a value that is neither a string nor a native date. In
    particular a relation without pivot timestamps returns the fetched
    rows. *)
Theorem exec_leaves_rows_without_timestamps b (fetched : list ResultRow) :
  (forall row key, row ∈ fetched -> key ∈ timestamp_aliases b ->
     match extras row !! key with
     | Some (VStr s) => s = ""
     | Some (VDate _) => False
     | _ => True
     end) ->
  exec b fetched = fetched.
Proof.
  intros Hplain. rewrite ManyToManySpec.exec_is_map.
  rewrite <- (list_fmap_id fetched) at 2.
  apply Forall_fmap_ext, Forall_forall. intros row Hrow.
  change (id row) with row.
  apply ResultRow_eq. intros key.
  rewrite ManyToManySpec.row_transformer_lookup.
  destruct (decide (key ∈ timestamp_aliases b)) as [Hkey|]; [|reflexivity].
  specialize (Hplain row key Hrow Hkey).
  destruct (extras row !! key) as [v|] eqn:Hv; rewrite ?Hv; simpl; [|reflexivity].
  f_equal. apply normalized_id. destruct v; tauto.
Qed.

End Builder.

(** X8 on the skills of a user. *)
Lemma pivot_in_and_null_qualify_pivot_witness :
  calls (PivotHelpers.whereInPivot Not "user_id" (Some [VNum 1; VNum 2]) skills_of_user) =
    (calls skills_of_user
     ++ [Call "whereNotIn" [ACol "skill_user.user_id"; AArr [VNum 1; VNum 2]]])%list
  /\ calls (PivotHelpers.whereNullPivot Not "user_id" skills_of_user) =
    (calls skills_of_user ++ [Call "whereNotNull" [ACol "skill_user.user_id"]])%list.
Proof.
  exact (pivot_in_and_null_qualify_pivot skills_of_user Not "user_id"
           (Some [VNum 1; VNum 2]) eq_refl eq_refl).
Defined.




(** X16 on a row whose pivot timestamp is [null]. *)
Lemma exec_leaves_rows_without_timestamps_witness :
  exec skills_of_user [mkResultRow {[ "pivot_created_at" := VNull ]}]
  = [mkResultRow {[ "pivot_created_at" := VNull ]}].
Proof.
  apply exec_leaves_rows_without_timestamps.
  intros row key Hrow Hkey.
  apply list_elem_of_singleton in Hrow as ->.
  apply list_elem_of_singleton in Hkey as ->.
  exact I.
Defined.

End ManyToManyMore.

(* ===================================================================== *)
(** * Further properties of associate and dissociate *)
(* ===================================================================== *)

Module BelongsToMore.
Import BelongsTo.

Lemma save_fault (r : Ref) (rest : list bool) (w : World) :
  faults w = true :: rest ->
  save r w = (mkWorld (heap w) (db w) rest, Thrown "persist failed").
Proof.
  intros Hfaults. unfold save, next_fault, mbind, M_bind, bind, throw.
  rewrite Hfaults. reflexivity.
Qed.

(** X17. [dissociate()] sets the parent's foreign key to [null] before it
    saves, so the key is [null] afterwards whether or not the save
    succeeds, and no other record is touched. When it returns, exactly
    one row image, the parent's with the [null] key, was written (through
    the parent's transaction when it has one); when the save fails the
    store is as before. *)
Theorem dissociate_nulls_and_saves_once relation parent w :
  let result := dissociate relation parent w in
  let w' := fst result in
  attribute (heap w' parent) (foreignKey relation) = VNull
  /\ (forall r, r <> parent -> heap w' r = heap w r)
  /\ match snd result with
     | Returned _ =>
         stored (trx (heap w parent)) (image (heap w' parent)) (db w) (db w')
         /\ write_row (image (heap w' parent)) !! foreignKey relation = Some VNull
     | Thrown _ =>
         committed (db w') = committed (db w) /\ pending (db w') = pending (db w)
     end.
Proof.
  intros result w'. unfold w', result, dissociate, get_row, put_row, mbind, M_bind, bind.
  cbn -[save].
  set (nulled := set_attribute (foreignKey relation) VNull (heap w parent)).
  set (w1 := mkWorld (update_row (heap w) parent nulled) (db w) (faults w)).
  assert (Hparent1 : heap w1 parent = nulled) by apply BelongsToSpec.update_row_same.
  assert (Hnull : attributes nulled !! foreignKey relation = Some VNull)
    by (unfold nulled; simpl; apply lookup_insert_eq).
  destruct (BelongsToSpec.save_cases parent w1)
    as [(rest & _ & ->) | [(w2 & t & -> & _ & _ & Hheap & Hc & Hp)
                          | (w2 & -> & Hheap & _ & Hdb)]]; cbn [fst snd].
  - split; [|split; [|split; reflexivity]].
    + cbn [heap]. rewrite Hparent1. apply BelongsToSpec.attribute_set_same.
    + intros r Hr. unfold w1. cbn [heap]. apply BelongsToSpec.update_row_other. exact Hr.
  - rewrite Hheap. split; [|split; [|split; assumption]].
    + rewrite Hparent1. apply BelongsToSpec.attribute_set_same.
    + intros r Hr. unfold w1. cbn [heap]. apply BelongsToSpec.update_row_other. exact Hr.
  - rewrite Hheap, Hparent1, BelongsToSpec.update_row_same.
    assert (Hkeeps : attributes (keyed nulled (next_key (db w1))) !! foreignKey relation
                     = Some VNull).
    { rewrite BelongsToSpec.keyed_keeps by (rewrite Hnull; eauto). exact Hnull. }
    split; [|split; [|split]].
    + unfold attribute. cbn [set_persisted attributes]. rewrite Hkeeps. reflexivity.
    + intros r Hr. rewrite BelongsToSpec.update_row_other by exact Hr.
      unfold w1. cbn [heap]. apply BelongsToSpec.update_row_other. exact Hr.
    + rewrite Hparent1 in Hdb. exact Hdb.
    + exact Hkeeps.
Qed.

(** X18. When the related record's save fails, [associate] stops there:
    it throws that failure, the parent's save is not attempted, the
    parent object is as it was (no key is hydrated into it), and nothing
    is stored, whoever owns the transaction. *)
Theorem associate_stops_at_first_failure relation parent client related w rest :
  faults w = true :: rest ->
  let result := associate relation parent client related w in
  let w' := fst result in
  snd result = Thrown "persist failed"
  /\ faults w' = rest
  /\ (parent <> related -> heap w' parent = heap w parent)
  /\ committed (db w') = committed (db w)
  /\ pending (db w') = pending (db w).
Proof.
  intros Hfaults result w'. unfold w', result.
  rewrite BelongsToSpec.associate_unfold.
  assert (Hsteps : forall t w0, faults w0 = true :: rest ->
            associate_steps relation parent related t w0 =
            (mkWorld (update_row (heap w0) related (set_trx (Some t) (heap w0 related)))
               (db w0) rest, Thrown "persist failed")).
  { intros t w0 Hw0. rewrite BelongsToSpec.associate_steps_unfold.
    rewrite (save_fault related rest) by exact Hw0. reflexivity. }
  destruct (parent_trx_or_client (heap w parent) client) as [|t].
  - rewrite BelongsToSpec.managedTransaction_plain. cbv zeta.
    rewrite Hsteps by exact Hfaults. cbn [fst snd heap db faults committed pending].
    split; [reflexivity|]. split; [reflexivity|]. split; [|split; [reflexivity|]].
    + intros Hne. apply BelongsToSpec.update_row_other. exact Hne.
    + unfold opened. cbn [db pending].
      rewrite delete_insert_eq. apply delete_id, BelongsToSpec.fresh_transaction_closed.
  - simpl. rewrite Hsteps by exact Hfaults. cbn [fst snd heap db faults].
    split; [reflexivity|]. split; [reflexivity|]. split; [|split; reflexivity].
    intros Hne. apply BelongsToSpec.update_row_other. exact Hne.
Qed.

(** The two row images in the order they are written. *)
Lemma associate_steps_writes relation parent related t writes w :
  pending (db w) !! t = Some writes ->
  parent <> related ->
  let result := associate_steps relation parent related t w in
  snd result = Returned tt ->
  pending (db (fst result)) =
  <[t := (writes ++ [image (heap (fst result) related);
                     image (heap (fst result) parent)])%list]> (pending (db w)).
Proof.
  intros Hopen Hne result. unfold result. rewrite BelongsToSpec.associate_steps_unfold.
  set (w1 := before_related_save related t w).
  assert (Htrx1 : trx (heap w1 related) = Some t)
    by (unfold w1, before_related_save; cbn [heap];
        rewrite BelongsToSpec.update_row_same; reflexivity).
  destruct (BelongsToSpec.save_cases related w1)
    as [(rest & _ & ->) | [(w2 & t' & -> & _) | (w2 & -> & Hheap2 & _ & Hdb2)]];
    [discriminate | discriminate |].
  rewrite Htrx1 in Hdb2. destruct Hdb2 as (_ & writes2 & Hw2 & Hp2).
  change (pending (db w1)) with (pending (db w)) in Hw2, Hp2.
  rewrite Hopen in Hw2. injection Hw2 as <-.
  set (saved := keyed (heap w1 related) (next_key (db w1))) in *.
  set (w3 := before_parent_save relation parent related t w2).
  assert (Htrx3 : trx (heap w3 parent) = Some t)
    by (unfold w3, before_parent_save; cbn [heap];
        rewrite BelongsToSpec.update_row_same; reflexivity).
  assert (Hrelated3 : heap w3 related = set_persisted saved).
  { unfold w3, before_parent_save. cbn [heap].
    rewrite !BelongsToSpec.update_row_other by congruence.
    rewrite Hheap2. apply BelongsToSpec.update_row_same. }
  destruct (BelongsToSpec.save_cases parent w3)
    as [(rest & _ & ->) | [(w4 & t' & -> & _) | (w4 & -> & Hheap4 & _ & Hdb4)]];
    [discriminate | discriminate |].
  rewrite Htrx3 in Hdb4. destruct Hdb4 as (_ & writes4 & Hw4 & Hp4).
  change (pending (db w3)) with (pending (db w2)) in Hw4, Hp4.
  rewrite Hp2, lookup_insert_eq in Hw4. injection Hw4 as <-.
  intros _. cbn [fst]. rewrite Hp4, Hp2, insert_insert_eq, <- app_assoc.
  rewrite Hheap4, BelongsToSpec.update_row_same.
  rewrite BelongsToSpec.update_row_other by congruence. rewrite Hrelated3.
  reflexivity.
Qed.

(** X19. The related record is persisted before the parent: when
    [associate] opened the transaction itself and returns, for two
    different records, what it has committed is the related record's row
    image followed by the parent's, and nothing else. *)
Theorem associate_saves_related_first relation parent related w :
  trx (heap w parent) = None ->
  parent <> related ->
  let result := associate relation parent PlainClient related w in
  let w' := fst result in
  snd result = Returned tt ->
  committed (db w') =
  (committed (db w) ++ [image (heap w' related); image (heap w' parent)])%list.
Proof.
  intros Hnone Hne result w'. unfold w', result.
  rewrite BelongsToSpec.associate_unfold. unfold parent_trx_or_client. rewrite Hnone.
  rewrite BelongsToSpec.managedTransaction_plain. cbv zeta.
  set (t := fresh (dom (pending (db w)))).
  pose proof (associate_steps_writes relation parent related t [] (opened w)
                (lookup_insert_eq _ _ _) Hne) as Hwrites.
  pose proof (BelongsToSpec.associate_steps_store relation parent related t [] (opened w)
                (lookup_insert_eq _ _ _)) as (Hcommitted & _).
  destruct (associate_steps relation parent related t (opened w)) as [w1 [[]|e]];
    [|discriminate].
  cbn [fst snd] in Hwrites, Hcommitted. specialize (Hwrites eq_refl).
  rewrite (BelongsToSpec.commit_open t _ w1
             ltac:(rewrite Hwrites; apply lookup_insert_eq)).
  intros _. cbn [fst heap db committed]. rewrite Hcommitted. reflexivity.
Qed.

(** X18 at the scenario of the specification, the user's save failing. *)
Lemma associate_stops_at_first_failure_witness :
  let w := mkWorld (profile_and_user saved_profile) profiles_only [true; false] in
  let result := associate profile_user 0%nat PlainClient 1%nat w in
  snd result = Thrown "persist failed"
  /\ faults (fst result) = [false]
  /\ (0%nat <> 1%nat -> heap (fst result) 0%nat = heap w 0%nat)
  /\ committed (db (fst result)) = committed (db w)
  /\ pending (db (fst result)) = pending (db w).
Proof.
  intros w.
  exact (associate_stops_at_first_failure profile_user 0%nat PlainClient 1%nat w [false]
           eq_refl).
Defined.

(** X19 at the scenario of the specification, without a failure. *)
Lemma associate_saves_related_first_witness :
  let w := mkWorld (profile_and_user saved_profile) profiles_only [] in
  let result := associate profile_user 0%nat PlainClient 1%nat w in
  committed (db (fst result)) =
  (committed (db w) ++ [image (heap (fst result) 1%nat);
                        image (heap (fst result) 0%nat)])%list.
Proof.
  intros w.
  refine (associate_saves_related_first profile_user 0%nat 1%nat w eq_refl _ _).
  - discriminate.
  - vm_compute. reflexivity.
Defined.

End BelongsToMore.
